(* ===================================================================== *)
(*  merechats: the websocket hub of package discord (HandleWebSocket,     *)
(*  handleIncomingMessage, broadcastToChat, broadcastGlobal,              *)
(*  persistMessage), embedded as state-passing functions over an explicit *)
(*  hub state: the clients map, the heap of *Client cells, the two mongo  *)
(*  collections and the log.                                              *)
(*                                                                        *)
(*  Granularity: each function below is one critical section or one call  *)
(*  of the Go source executed without interleaving; goroutine scheduling  *)
(*  is not modelled. Go panics (send on a closed channel, close of a      *)
(*  closed channel, nil dereference) are results of type [Res].           *)
(* ===================================================================== *)

From stdpp Require Import gmap strings list fin_maps sorting.
From Stdlib Require Import ZArith Lia Ascii.
From Stdlib Require OrderedTypeEx.


(* --------------------------------------------------------------------- *)
(*  Panics and the result monad                                           *)
(* --------------------------------------------------------------------- *)

Inductive PanicKind : Type :=
  | SendOnClosedChannel
  | CloseOfClosedChannel
  | NilDereference.

Inductive Res (A : Type) : Type :=
  | Done (a : A)
  | Panic (why : PanicKind).
Arguments Done {A} a.
Arguments Panic {A} why.

#[global] Instance Res_ret : MRet Res := @Done.
#[global] Instance Res_bind : MBind Res :=
  λ A B f m, match m with Done a => f a | Panic w => Panic w end.

Definition returns {A} (r : Res A) : Prop := ∃ a, r = Done a.

(* --------------------------------------------------------------------- *)
(*  package models                                                        *)
(* --------------------------------------------------------------------- *)

Module models.

(* time.Time, as nanoseconds since the epoch *)
Definition Time := Z.
Bind Scope Z_scope with Time.
(* primitive.ObjectID, as the store hands them out *)
Definition ObjectID := nat.

Record IncomingWSMessage : Type := mkIncoming {
  Type_ : string;
  ChatID : string;
  Content : string;
  MediaURL : string;
  MediaType : string;
  Online : bool;
  ClientID : string
}.

Record Chat : Type := mkChat {
  chat_ChatID : string;
  Participants : list string;
  chat_CreatedAt : Time;
  UpdatedAt : Time;
  EntityType : string;
  EntityId : string
}.

Record Media : Type := mkMedia { URL : string; Type_media : string }.

(* The fields of models.Message that the hub writes; the others
   (SenderName, AvatarURL, ReplyTo, EditedAt, Deleted, ReadBy, Status)
   keep their zero values on this path. *)
Record Message : Type := mkMessage {
  ID : ObjectID;
  msg_ChatID : string;
  UserID : string;
  msg_Content : string;
  msg_Media : option Media;
  CreatedAt : Time
}.

#[global] Instance Media_eq_dec : EqDecision Media.
Proof. solve_decision. Defined.
#[global] Instance Message_eq_dec : EqDecision Message.
Proof. solve_decision. Defined.

End models.
Import models.

(* --------------------------------------------------------------------- *)
(*  Outbound payloads: map[string]interface{}                             *)
(* --------------------------------------------------------------------- *)

Inductive Value : Type :=
  | VString (s : string)
  | VBool (b : bool)
  | VTime (t : Time)
  | VHex (id : ObjectID)            (* msg.ID.Hex() *)
  | VMedia (m : option Media).      (* *models.Media, nil or not *)

#[global] Instance Value_eq_dec : EqDecision Value.
Proof. solve_decision. Defined.

Abbreviation Payload := (gmap string Value).

(* --------------------------------------------------------------------- *)
(*  Client, its connection and its buffered channel                       *)
(* --------------------------------------------------------------------- *)

Definition second : Z := 1000000000%Z.       (* time.Second, in ns *)

Definition writeTimeout : Z := (10 * second)%Z.
Definition pongWait : Z := (60 * second)%Z.
Definition pingPeriod : Z := (30 * second)%Z.   (* must be < pongWait *)
Definition sendQueueSize : nat := 256.

(* chan interface{} with a buffer *)
Record Chan : Type := mkChan {
  buf : list Payload;
  cap : nat;
  closed : bool
}.

(* What the hub does to a *websocket.Conn: deadlines, frames written,
   pings sent, Close. *)
Record Conn : Type := mkConn {
  conn_closed : bool;
  readDeadline : option Time;
  writeDeadline : option Time;
  written : list Payload;
  pings : list Time             (* deadline passed to each WriteControl *)
}.

(* One heap cell per accepted connection: the Client struct, and with it
   the rest of the same HandleWebSocket activation: its [done] channel and
   whether its writer and heartbeat goroutines have returned. *)
Record Client : Type := mkClient {
  client_UserID : string;
  conn : Conn;
  Send : Chan;
  done_closed : bool;
  writer_returned : bool;
  heartbeat_returned : bool
}.

Abbreviation ptr := nat.     (* *Client: index of the cell in the heap *)

Inductive LogLine : Type :=
  | LogConnected (userID : string)
  | LogDisconnected (userID : string)
  | LogReadError (userID : string)
  | LogWriteError (userID : string)
  | LogUnknownType (userID type : string)
  | LogMembershipCheckFailed (userID : string)
  | LogUnauthorized (userID chatid : string)
  | LogPersistError (userID : string)
  | LogChatNotFound (chatid : string)
  | LogDropping (uid : string)
  | LogDroppingGlobal (uid : string).

#[global] Instance LogLine_eq_dec : EqDecision LogLine.
Proof. solve_decision. Defined.

Record Hub : Type := mkHub {
  clients_m : gmap string ptr;          (* clients.m *)
  heap : list Client;
  MereCollection : list Chat;           (* db.MereCollection *)
  MessagesCollection : list Message;    (* db.MessagesCollection *)
  next_oid : ObjectID;
  logs : list LogLine
}.

Definition set_clients_m (f : gmap string ptr → gmap string ptr) (st : Hub) : Hub :=
  mkHub (f (clients_m st)) (heap st) (MereCollection st)
        (MessagesCollection st) (next_oid st) (logs st).

Definition set_heap (f : list Client → list Client) (st : Hub) : Hub :=
  mkHub (clients_m st) (f (heap st)) (MereCollection st)
        (MessagesCollection st) (next_oid st) (logs st).

Definition log (l : LogLine) (st : Hub) : Hub :=
  mkHub (clients_m st) (heap st) (MereCollection st)
        (MessagesCollection st) (next_oid st) (logs st ++ [l]).

Definition set_conn (f : Conn → Conn) (c : Client) : Client :=
  mkClient (client_UserID c) (f (conn c)) (Send c) (done_closed c)
           (writer_returned c) (heartbeat_returned c).

Definition set_Send (f : Chan → Chan) (c : Client) : Client :=
  mkClient (client_UserID c) (conn c) (f (Send c)) (done_closed c)
           (writer_returned c) (heartbeat_returned c).

(* close(done) *)
Definition close_done (c : Client) : Client :=
  mkClient (client_UserID c) (conn c) (Send c) true
           (writer_returned c) (heartbeat_returned c).

Definition writer_return (c : Client) : Client :=
  mkClient (client_UserID c) (conn c) (Send c) (done_closed c)
           true (heartbeat_returned c).

Definition heartbeat_return (c : Client) : Client :=
  mkClient (client_UserID c) (conn c) (Send c) (done_closed c)
           (writer_returned c) true.

Definition update_cell (p : ptr) (f : Client → Client) (st : Hub) : Hub :=
  set_heap (λ h, match h !! p with Some c => <[p := f c]> h | None => h end) st.

(* The hub at process start, over a store that already holds [chats]:
   nobody is connected. *)
Definition initial (chats : list Chat) : Hub := mkHub ∅ [] chats [] 0 [].

Definition empty_hub : Hub := initial [].

(* --------------------------------------------------------------------- *)
(*  Channel and connection primitives                                     *)
(* --------------------------------------------------------------------- *)

Definition is_full (ch : Chan) : bool := bool_decide (cap ch ≤ length (buf ch))%nat.

Inductive SendOutcome : Type := Sent (ch : Chan) | WouldBlock | SendPanics.

(* select { case ch <- v: ... default: ... } *)
Definition try_send (v : Payload) (ch : Chan) : SendOutcome :=
  if closed ch then SendPanics
  else if is_full ch then WouldBlock
  else Sent (mkChan (buf ch ++ [v]) (cap ch) false).

(* close(ch) *)
Definition close_chan (ch : Chan) : Res Chan :=
  if closed ch then Panic CloseOfClosedChannel
  else Done (mkChan (buf ch) (cap ch) true).

Definition conn_Close (c : Conn) : Conn :=
  mkConn true (readDeadline c) (writeDeadline c) (written c) (pings c).

Definition SetReadDeadline (t : Time) (c : Conn) : Conn :=
  mkConn (conn_closed c) (Some t) (writeDeadline c) (written c) (pings c).

Definition SetWriteDeadline (t : Time) (c : Conn) : Conn :=
  mkConn (conn_closed c) (readDeadline c) (Some t) (written c) (pings c).

(* --------------------------------------------------------------------- *)
(*  HandleWebSocket: registration and the deferred cleanup                *)
(* --------------------------------------------------------------------- *)

(* client := &Client{UserID: userID, Conn: conn,
                     Send: make(chan interface{}, sendQueueSize)} *)
Definition new_Client (userID : string) : Client :=
  mkClient userID (mkConn false None None [] []) (mkChan [] sendQueueSize false)
           false false false.

(* clients.Lock(); clients.m[userID] = client; clients.Unlock() *)
Definition register (userID : string) (client : ptr) (st : Hub) : Hub :=
  set_clients_m (λ m, <[userID := client]> m) st.

(* From the log line after ValidateJWT to the end of registration. *)
Definition connect (userID : string) (st : Hub) : ptr * Hub :=
  let st := log (LogConnected userID) st in
  let client := length (heap st) in
  let st := set_heap (λ h, h ++ [new_Client userID]) st in
  (client, register userID client st).

(* if c, ok := clients.m[userID]; ok { delete(clients.m, userID); close(c.Send) } *)
Definition unregister (userID : string) (st : Hub) : Res Hub :=
  match clients_m st !! userID with
  | Some c =>
      let st := set_clients_m (delete userID) st in
      match heap st !! c with
      | Some cl =>
          ch ← close_chan (Send cl);
          Done (update_cell c (set_Send (λ _, ch)) st)
      | None => Panic NilDereference
      end
  | None => Done st
  end.

(* The deferred function of HandleWebSocket, run for the activation whose
   client is [self] and whose token carried [userID]. *)
Definition cleanup (userID : string) (self : ptr) (st : Hub) : Res Hub :=
  let st := update_cell self close_done st in
  st ← unregister userID st;
  let st := update_cell self (set_conn conn_Close) st in
  Done (log (LogDisconnected userID) st).

(* A session has been terminated when its transport is closed or its
   outbound queue is closed. *)
Definition terminated (st : Hub) (p : ptr) : bool :=
  match heap st !! p with
  | Some c => conn_closed (conn c) || closed (Send c)
  | None => false
  end.

Definition lookup_session (userID : string) (st : Hub) : option ptr :=
  clients_m st !! userID.

(* --------------------------------------------------------------------- *)
(*  The store: the calls the hub makes on the two collections             *)
(* --------------------------------------------------------------------- *)

(* What the environment decides during one dispatch: the two readings of
   time.Now() in persistMessage and whether each store call fails. *)
Record Env : Type := mkEnv {
  now_created : Time;
  now_updated : Time;
  CountDocuments_fails : bool;
  InsertOne_fails : bool;
  UpdateOne_fails : bool;
  FindOne_fails : bool
}.

Definition has_chatid (cid : string) (c : Chat) : bool :=
  bool_decide (chat_ChatID c = cid).

Definition has_member (cid userID : string) (c : Chat) : bool :=
  has_chatid cid c && bool_decide (userID ∈ Participants c).

(* CountDocuments(ctx, bson.M{"chatid": cid, "participants": userID});
   None is a non-nil err. *)
Definition CountDocuments (e : Env) (cid userID : string) (st : Hub) : option nat :=
  if CountDocuments_fails e then None
  else Some (length (List.filter (has_member cid userID) (MereCollection st))).

(* FindOne(ctx, bson.M{"chatid": cid}).Decode(&chat); None is a non-nil
   err, which includes mongo.ErrNoDocuments. *)
Definition FindOne (e : Env) (cid : string) (st : Hub) : option Chat :=
  if FindOne_fails e then None
  else List.find (has_chatid cid) (MereCollection st).

(* InsertOne(ctx, msg): the store assigns the _id. *)
Definition InsertOne (e : Env) (msg : Message) (st : Hub) : option (ObjectID * Hub) :=
  if InsertOne_fails e then None
  else
    let id := next_oid st in
    let doc := mkMessage id (msg_ChatID msg) (UserID msg) (msg_Content msg)
                         (msg_Media msg) (CreatedAt msg) in
    Some (id, mkHub (clients_m st) (heap st) (MereCollection st)
                    (MessagesCollection st ++ [doc]) (S id) (logs st)).

Fixpoint touch_first (cid : string) (t : Time) (l : list Chat) : list Chat :=
  match l with
  | [] => []
  | c :: rest =>
      if has_chatid cid c
      then mkChat (chat_ChatID c) (Participants c) (chat_CreatedAt c) t
                  (EntityType c) (EntityId c) :: rest
      else c :: touch_first cid t rest
  end.

(* UpdateOne(ctx, bson.M{"chatid": chatID},
             bson.M{"$set": bson.M{"updatedAt": time.Now()}}) *)
Definition UpdateOne (e : Env) (cid : string) (t : Time) (st : Hub) : Hub :=
  if UpdateOne_fails e then st
  else mkHub (clients_m st) (heap st) (touch_first cid t (MereCollection st))
             (MessagesCollection st) (next_oid st) (logs st).

(* --------------------------------------------------------------------- *)
(*  Persistence                                                           *)
(* --------------------------------------------------------------------- *)

Inductive error : Type :=
  | ErrEmptyContentAndMedia       (* errors.New("empty content and media") *)
  | ErrInsertOne.                 (* the err of InsertOne *)

Definition persistMessage (e : Env) (chatID sender content mediaURL mediaType : string)
    (st : Hub) : (Message + error) * Hub :=
  if bool_decide (content = "") && bool_decide (mediaURL = "") then
    (inr ErrEmptyContentAndMedia, st)
  else
    let media :=
      if negb (bool_decide (mediaURL = "")) && negb (bool_decide (mediaType = ""))
      then Some (mkMedia mediaURL mediaType) else None in
    let msg := mkMessage 0 chatID sender content media (now_created e) in
    match InsertOne e msg st with
    | None => (inr ErrInsertOne, st)
    | Some (id, st) =>
        let msg := mkMessage id chatID sender content media (now_created e) in
        let st := UpdateOne e chatID (now_updated e) st in
        (inl msg, st)
    end.

Definition persistMediaMessage (e : Env) (chatID sender mediaURL mediaType : string)
    (st : Hub) : (Message + error) * Hub :=
  persistMessage e chatID sender "" mediaURL mediaType st.

(* --------------------------------------------------------------------- *)
(*  Broadcasting                                                          *)
(* --------------------------------------------------------------------- *)

Definition push (payload : Payload) (c : Client) : Client :=
  set_Send (λ ch, mkChan (buf ch ++ [payload]) (cap ch) false) c.

(* select { case client.Send <- payload: default: log.Printf(...) } *)
Definition send_or_drop {X} (who : X → ptr) (dropped : X → Client → LogLine)
    (payload : Payload) (x : X) (st : Hub) : Res Hub :=
  match heap st !! who x with
  | None => Panic NilDereference
  | Some c =>
      match try_send payload (Send c) with
      | Sent ch => Done (update_cell (who x) (set_Send (λ _, ch)) st)
      | WouldBlock => Done (log (dropped x c) st)
      | SendPanics => Panic SendOnClosedChannel
      end
  end.

(* for ... := range targets { select ... } *)
Fixpoint send_each {X} (who : X → ptr) (dropped : X → Client → LogLine)
    (payload : Payload) (l : list X) (st : Hub) : Res Hub :=
  match l with
  | [] => Done st
  | x :: rest =>
      st ← send_or_drop who dropped payload x st;
      send_each who dropped payload rest st
  end.

(* for _, p := range chat.Participants {
     if c, ok := clients.m[p]; ok { targets[p] = c } } *)
Definition resolve_targets (m : gmap string ptr) (participants : list string)
    : gmap string ptr :=
  foldl (λ targets p,
           match m !! p with
           | Some c => <[p := c]> targets
           | None => targets
           end) ∅ participants.

(* Go ranges over a map in an unspecified order; the model ranges in the
   order of map_to_list. The lemmas on send_each hold for any order. *)
Definition broadcastToChat (e : Env) (chatHex : string) (payload : Payload)
    (st : Hub) : Res Hub :=
  let cid := chatHex in
  match FindOne e cid st with
  | None => Done (log (LogChatNotFound cid) st)
  | Some chat =>
      let targets := resolve_targets (clients_m st) (Participants chat) in
      send_each snd (λ x _, LogDropping (fst x)) payload (map_to_list targets) st
  end.

Definition broadcastGlobal (payload : Payload) (st : Hub) : Res Hub :=
  let conns := (map_to_list (clients_m st)).*2 in
  send_each id (λ _ c, LogDroppingGlobal (client_UserID c)) payload conns st.

(* --------------------------------------------------------------------- *)
(*  Inbound envelopes                                                     *)
(* --------------------------------------------------------------------- *)

Definition message_payload (msg : Message) (in_ : IncomingWSMessage) : Payload :=
  let payload : Payload :=
    <["type" := VString "message"]>
    (<["id" := VHex (ID msg)]>
    (<["sender" := VString (UserID msg)]>
    (<["content" := VString (msg_Content msg)]>
    (<["createdAt" := VTime (CreatedAt msg)]>
    (<["media" := VMedia (msg_Media msg)]>
    (<["chatid" := VString (msg_ChatID msg)]> ∅)))))) in
  if negb (bool_decide (ClientID in_ = ""))
  then <["clientId" := VString (ClientID in_)]> payload
  else payload.

Definition typing_payload (userID chatid : string) : Payload :=
  <["type" := VString "typing"]>
  (<["sender" := VString userID]>
  (<["chatid" := VString chatid]> ∅)).

Definition presence_payload (userID : string) (online : bool) : Payload :=
  <["type" := VString "presence"]>
  (<["from" := VString userID]>
  (<["online" := VBool online]> ∅)).

Definition handleIncomingMessage (e : Env) (client : ptr) (in_ : IncomingWSMessage)
    (st : Hub) : Res Hub :=
  let cid := ChatID in_ in
  match heap st !! client with
  | None => Panic NilDereference
  | Some c =>
      let userID := client_UserID c in
      match CountDocuments e cid userID st with
      | None => Done (log (LogMembershipCheckFailed userID) st)
      | Some 0 => Done (log (LogUnauthorized userID (ChatID in_)) st)
      | Some (S _) =>
          match persistMessage e cid userID (Content in_) (MediaURL in_)
                               (MediaType in_) st with
          | (inr _, st) => Done (log (LogPersistError userID) st)
          | (inl msg, st) => broadcastToChat e cid (message_payload msg in_) st
          end
      end
  end.

(* switch in.Type { ... } in the reader loop of HandleWebSocket *)
Definition dispatch (e : Env) (userID : string) (client : ptr)
    (in_ : IncomingWSMessage) (st : Hub) : Res Hub :=
  if String.eqb (Type_ in_) "message" then
    handleIncomingMessage e client in_ st
  else if String.eqb (Type_ in_) "typing" then
    broadcastToChat e (ChatID in_) (typing_payload userID (ChatID in_)) st
  else if String.eqb (Type_ in_) "presence" then
    broadcastGlobal (presence_payload userID (Online in_)) st
  else
    Done (log (LogUnknownType userID (Type_ in_)) st).

(* What conn.ReadJSON(&in) gives on one iteration. *)
Inductive ReadJSON : Type :=
  | ReadOk (in_ : IncomingWSMessage) (e : Env)
  | ReadErr.

Inductive LoopStatus : Type :=
  | Reading      (* blocked in ReadJSON: the inputs so far are consumed *)
  | Broke.       (* left the loop through break *)

(* for { if err := conn.ReadJSON(&in); err != nil { ...; break }; switch ... } *)
Fixpoint reader_loop (userID : string) (client : ptr) (inputs : list ReadJSON)
    (st : Hub) : Res (LoopStatus * Hub) :=
  match inputs with
  | [] => Done (Reading, st)
  | ReadErr :: _ => Done (Broke, log (LogReadError userID) st)
  | ReadOk in_ e :: rest =>
      st ← dispatch e userID client in_ st;
      reader_loop userID client rest st
  end.

(* --------------------------------------------------------------------- *)
(*  Deadlines: pong handler, writer goroutine, heartbeat goroutine        *)
(* --------------------------------------------------------------------- *)

(* conn.SetReadDeadline(time.Now().Add(pongWait)): before the reader loop
   and again in the pong handler. *)
Definition refresh_read_deadline (now : Time) (client : ptr) (st : Hub) : Hub :=
  update_cell client (set_conn (SetReadDeadline (now + pongWait)%Z)) st.

Definition WriteJSON (msg : Payload) (c : Conn) : Conn :=
  mkConn (conn_closed c) (readDeadline c) (writeDeadline c) (written c ++ [msg]) (pings c).

Definition WriteControl_ping (deadline : Time) (c : Conn) : Conn :=
  mkConn (conn_closed c) (readDeadline c) (writeDeadline c) (written c) (pings c ++ [deadline]).

(* One iteration of [for msg := range client.Send]; [write_ok] is whether
   the transport accepts the frame (a closed connection never does). With an
   empty queue the goroutine is blocked, or leaves the loop if the channel
   is closed; after a failed write it closes the connection and returns. *)
Definition writer_step (now : Time) (write_ok : bool) (client : ptr) (st : Hub) : Hub :=
  match heap st !! client with
  | None => st
  | Some c =>
      if writer_returned c then st
      else
        match buf (Send c) with
        | [] =>
            if closed (Send c)
            then set_heap (λ h, <[client := writer_return c]> h) st
            else st
        | msg :: rest =>
            let c := set_Send (λ ch, mkChan rest (cap ch) (closed ch)) c in
            let c := set_conn (SetWriteDeadline (now + writeTimeout)%Z) c in
            if write_ok && negb (conn_closed (conn c)) then
              set_heap (λ h, <[client := set_conn (WriteJSON msg) c]> h) st
            else
              log (LogWriteError (client_UserID c))
                  (set_heap (λ h, <[client := writer_return (set_conn conn_Close c)]> h) st)
        end
  end.

(* One firing of ticker.C in the heartbeat goroutine; [t1] and [t2] are the
   two readings of time.Now(), [ping_ok] whether the transport accepts the
   ping (a closed connection never does). Once [done] is closed the select
   takes that case and the goroutine returns; after a failed ping it closes
   the connection and returns. *)
Definition heartbeat_tick (t1 t2 : Time) (ping_ok : bool) (client : ptr) (st : Hub) : Hub :=
  match heap st !! client with
  | None => st
  | Some c =>
      if heartbeat_returned c then st
      else if done_closed c then
        set_heap (λ h, <[client := heartbeat_return c]> h) st
      else
        let c := set_conn (SetWriteDeadline (t1 + writeTimeout)%Z) c in
        let c := if ping_ok && negb (conn_closed (conn c))
                 then set_conn (WriteControl_ping (t2 + writeTimeout)%Z) c
                 else heartbeat_return (set_conn conn_Close c) in
        set_heap (λ h, <[client := c]> h) st
  end.

(* --------------------------------------------------------------------- *)
(*  The hub as a transition system                                        *)
(* --------------------------------------------------------------------- *)

Inductive Event : Type :=
  | EvConnect (userID : string) (now : Time)
  | EvReceive (client : ptr) (in_ : IncomingWSMessage) (e : Env)
  | EvReadError (client : ptr)
  | EvPong (client : ptr) (now : Time)
  | EvWriter (client : ptr) (now : Time) (write_ok : bool)
  | EvTick (client : ptr) (t1 t2 : Time) (ping_ok : bool).

(* The activation of HandleWebSocket for [client] is still in its reader
   loop: its cell exists and its deferred function has not run. *)
Definition in_reader_loop (st : Hub) (client : ptr) : option string :=
  match heap st !! client with
  | Some c => if done_closed c then None else Some (client_UserID c)
  | None => None
  end.

(* Events addressed to an activation that has returned do not occur; the
   step function leaves the state alone on them. *)
Definition step (ev : Event) (st : Hub) : Res Hub :=
  match ev with
  | EvConnect userID now =>
      let '(client, st) := connect userID st in
      Done (refresh_read_deadline now client st)
  | EvReceive client in_ e =>
      match in_reader_loop st client with
      | Some userID => dispatch e userID client in_ st
      | None => Done st
      end
  | EvReadError client =>
      match in_reader_loop st client with
      | Some userID => cleanup userID client (log (LogReadError userID) st)
      | None => Done st
      end
  | EvPong client now =>
      match in_reader_loop st client with
      | Some _ => Done (refresh_read_deadline now client st)
      | None => Done st
      end
  | EvWriter client now write_ok => Done (writer_step now write_ok client st)
  | EvTick client t1 t2 ping_ok => Done (heartbeat_tick t1 t2 ping_ok client st)
  end.

Fixpoint run (evs : list Event) (st : Hub) : Res Hub :=
  match evs with
  | [] => Done st
  | ev :: rest => st ← step ev st; run rest st
  end.

Definition reachable (st : Hub) : Prop :=
  ∃ chats evs, run evs (initial chats) = Done st.

(* Every registered pointer names a cell that carries the key as its UserID
   and whose Send channel is open and was made with sendQueueSize slots. *)
Definition registry_ok (st : Hub) : Prop :=
  ∀ u p, clients_m st !! u = Some p →
    ∃ c, heap st !! p = Some c ∧ client_UserID c = u ∧ closed (Send c) = false
         ∧ cap (Send c) = sendQueueSize.

(* Cell [p] of [h'] is cell [p] of [h] up to the contents of the buffer and
   the connection. *)
Definition same_identity (c c' : Client) : Prop :=
  client_UserID c' = client_UserID c ∧ closed (Send c') = closed (Send c)
  ∧ cap (Send c') = cap (Send c).

Definition heap_extends (st st' : Hub) : Prop :=
  ∀ p c, heap st !! p = Some c → ∃ c', heap st' !! p = Some c' ∧ same_identity c c'.

(* --------------------------------------------------------------------- *)
(*  Vocabulary of the statements                                          *)
(* --------------------------------------------------------------------- *)

(* What one select does to the cell of a recipient whose channel is open. *)
Definition deliver (payload : Payload) (c : Client) : Client :=
  if is_full (Send c) then c else push payload c.

Definition is_open (st : Hub) (p : ptr) : Prop :=
  ∃ c, heap st !! p = Some c ∧ closed (Send c) = false.

(* The line logged for recipient [x], if its frame is dropped. *)
Definition drop_line {X} (who : X → ptr) (dropped : X → Client → LogLine)
    (st : Hub) (x : X) : option LogLine :=
  match heap st !! who x with
  | Some c => if is_full (Send c) then Some (dropped x c) else None
  | None => None
  end.

(* The frames waiting in the outbound queue of session [p]. *)
Definition queue (st : Hub) (p : ptr) : list Payload :=
  match heap st !! p with
  | Some c => buf (Send c)
  | None => []
  end.

Definition queue_full (st : Hub) (p : ptr) : bool :=
  match heap st !! p with
  | Some c => is_full (Send c)
  | None => false
  end.

(* The broadcast from [st] to [st'] put [payload] at the tail of the
   queue of [p]. *)
Definition enqueued (payload : Payload) (st st' : Hub) (p : ptr) : bool :=
  bool_decide (queue st' p = queue st p ++ [payload]).

Definition count {A} (f : A → bool) (l : list A) : nat := length (List.filter f l).

(* The record persistMessage stores and returns for an envelope of [sender],
   once the store has assigned [id]. *)
Definition stored_message (e : Env) (sender : string) (in_ : IncomingWSMessage)
    (id : ObjectID) : Message :=
  mkMessage id (ChatID in_) sender (Content in_)
    (if negb (bool_decide (MediaURL in_ = "")) && negb (bool_decide (MediaType in_ = ""))
     then Some (mkMedia (MediaURL in_) (MediaType in_)) else None)
    (now_created e).

(* The store after a successful InsertOne of [msg]. *)
Definition with_message (msg : Message) (st : Hub) : Hub :=
  mkHub (clients_m st) (heap st) (MereCollection st)
        (MessagesCollection st ++ [msg]) (S (next_oid st)) (logs st).

(* The sessions a broadcast to the room [chat] resolves, as the list the
   loop ranges over. *)
Definition targets_of (st : Hub) (chat : Chat) : list (string * ptr) :=
  map_to_list (resolve_targets (clients_m st) (Participants chat)).

(* --------------------------------------------------------------------- *)
(*  REST handlers of package discord on the same store                    *)
(* --------------------------------------------------------------------- *)

(* What a handler leaves on the http.ResponseWriter. Encoding a response
   body is taken to succeed: json.Encoder fails on these values only when
   the connection does. *)
Inductive Body : Type :=
  | BodyText (msg : string)          (* writeErr(w, msg, code) *)
  | BodyError (err : error)          (* writeErr(w, err.Error(), code) *)
  | BodyPayload (resp : Payload)     (* json of a map[string]interface{} *)
  | BodyMessage (msg : Message).     (* json of a *models.Message *)

Record Response : Type := mkResponse { status : nat; body : Body }.

Definition StatusOK : nat := 200.
Definition StatusBadRequest : nat := 400.
Definition StatusNotFound : nat := 404.
Definition StatusInternalServerError : nat := 500.

(* writeErr(w, msg, code) = http.Error(w, msg, code) *)
Definition writeErr (msg : string) (code : nat) : Response := mkResponse code (BodyText msg).

(* FindOne(ctx, bson.M{"chatid": chatID, "participants": user}) *)
Inductive FindResult : Type :=
  | Found (chat : Chat)
  | ErrNoDocuments            (* mongo.ErrNoDocuments *)
  | ErrOther.                 (* any other err *)

Definition FindOne_member (e : Env) (chatID user : string) (st : Hub) : FindResult :=
  if FindOne_fails e then ErrOther
  else match List.find (has_member chatID user) (MereCollection st) with
       | Some chat => Found chat
       | None => ErrNoDocuments
       end.

(* The decoded body of SendMessageREST. *)
Record SendBody : Type := mkSendBody { body_Content : string; body_ClientID : string }.

(* resp := map[string]interface{}{"id": ..., ...}; clientId if provided *)
Definition rest_payload (msg : Message) (clientID : string) : Payload :=
  let resp : Payload :=
    <["id" := VHex (ID msg)]>
    (<["sender" := VString (UserID msg)]>
    (<["content" := VString (msg_Content msg)]>
    (<["createdAt" := VTime (CreatedAt msg)]>
    (<["media" := VMedia (msg_Media msg)]>
    (<["chatid" := VString (msg_ChatID msg)]> ∅))))) in
  if negb (bool_decide (clientID = ""))
  then <["clientId" := VString clientID]> resp
  else resp.

(* SendMessageREST for the authenticated [user]; [decoded] is what
   json.Decode makes of the request body, None when it fails. TrimSpace is
   strings.TrimSpace. *)
Definition SendMessageREST (TrimSpace : string → string) (e : Env)
    (user chatID : string) (decoded : option SendBody) (st : Hub) : Response * Hub :=
  match FindOne_member e chatID user st with
  | ErrNoDocuments => (writeErr "not found or access denied" StatusNotFound, st)
  | ErrOther => (writeErr "internal error" StatusInternalServerError, st)
  | Found _ =>
      match decoded with
      | None => (writeErr "invalid body" StatusBadRequest, st)
      | Some body =>
          if bool_decide (TrimSpace (body_Content body) = "") then
            (writeErr "content required" StatusBadRequest, st)
          else
            match persistMessage e chatID user (body_Content body) "" "" st with
            | (inr err, st) =>
                (mkResponse StatusInternalServerError (BodyError err), st)
            | (inl msg, st) =>
                (mkResponse StatusOK (BodyPayload (rest_payload msg (body_ClientID body))),
                 st)
            end
      end
  end.

(* UploadAttachment for the authenticated [user]; contentType and savedName
   are the form values "contenttype" and "savedname". *)
Definition UploadAttachment (e : Env) (user chatID contentType savedName : string)
    (st : Hub) : Response * Hub :=
  match FindOne_member e chatID user st with
  | ErrNoDocuments => (writeErr "chat not found or access denied" StatusNotFound, st)
  | ErrOther => (writeErr "internal error" StatusInternalServerError, st)
  | Found _ =>
      match persistMediaMessage e chatID user savedName contentType st with
      | (inr _, st) => (writeErr "failed to persist message" StatusInternalServerError, st)
      | (inl msg, st) => (mkResponse StatusOK (BodyMessage msg), st)
      end
  end.

(* --------------------------------------------------------------------- *)
(*  Pagination of GetChatMessages, SearchMessages and GetUserChats        *)
(* --------------------------------------------------------------------- *)

(* parseInt64(s) = strconv.ParseInt(s, 10, 64); [ParseInt] gives the value
   when err == nil and None otherwise. *)
Definition parseInt64 (ParseInt : string → option Z) (s : string) : option Z :=
  ParseInt s.

(* limit := int64(default);
   if l := query("limit"); l != "" {
     if v, err := parseInt64(l); err == nil && v > 0 { limit = v } } *)
Definition page_limit (ParseInt : string → option Z) (default : Z) (l : string) : Z :=
  if bool_decide (l = "") then default
  else match parseInt64 ParseInt l with
       | Some v => if bool_decide (0 < v)%Z then v else default
       | None => default
       end.

(* skip := int64(0);
   if s := query("skip"); s != "" {
     if v, err := parseInt64(s); err == nil && v >= 0 { skip = v } } *)
Definition page_skip (ParseInt : string → option Z) (s : string) : Z :=
  if bool_decide (s = "") then 0%Z
  else match parseInt64 ParseInt s with
       | Some v => if bool_decide (0 ≤ v)%Z then v else 0%Z
       | None => 0%Z
       end.

(* --------------------------------------------------------------------- *)
(*  StartNewChat: the participant list of the chat                        *)
(* --------------------------------------------------------------------- *)

(* for _, p := range body.Participants {
     if p == "" { continue }
     if _, ok := seen[p]; !ok { seen[p] = struct{}{}; participants = append(participants, p) } }
   The result is the list appended and the final [seen]. *)
Fixpoint dedup_participants (seen : gset string) (requested : list string)
    : list string * gset string :=
  match requested with
  | [] => ([], seen)
  | p :: rest =>
      if bool_decide (p = "") then dedup_participants seen rest
      else if bool_decide (p ∈ seen) then dedup_participants seen rest
      else
        let '(participants, seen') := dedup_participants ({[p]} ∪ seen) rest in
        (p :: participants, seen')
  end.

(* The order sort.Strings sorts by: Go's <= on strings, bytes compared from
   the left. *)
Definition string_le (s1 s2 : string) : Prop := String.leb s1 s2 = true.

#[global] Instance string_le_dec : RelDecision string_le.
Proof. intros s1 s2. unfold string_le. apply _. Defined.

Inductive ParticipantsResult : Type :=
  | ParticipantsRequired        (* 400 "participants required" *)
  | NoValidParticipants         (* 400 "no valid participants" *)
  | ChatParticipants (participants : list string).

(* StartNewChat from the check of body.Participants to sort.Strings, for the
   authenticated [user]. sort.Strings is given by merge sort: the order is
   total, so every sort returns the same list. *)
Definition chat_participants (user : string) (requested : list string)
    : ParticipantsResult :=
  if bool_decide (length requested = 0) then ParticipantsRequired
  else
    let '(participants, seen) := dedup_participants ∅ requested in
    let participants :=
      if bool_decide (user ∈ seen) then participants else participants ++ [user] in
    if bool_decide (length participants = 0) then NoValidParticipants
    else ChatParticipants (merge_sort string_le participants).

(* --------------------------------------------------------------------- *)
(*  One activation of HandleWebSocket, from the upgrade to its return     *)
(* --------------------------------------------------------------------- *)

(* HandleWebSocket once the token is valid and the upgrade has succeeded,
   run without interleaving with other activations: registration, initial
   read deadline, reader loop on [inputs], and the deferred cleanup when the
   loop is left. With the inputs exhausted the activation is still blocked
   in ReadJSON and has not returned. *)
Definition HandleWebSocket (userID : string) (now : Time) (inputs : list ReadJSON)
    (st : Hub) : Res (LoopStatus * Hub) :=
  let '(client, st) := connect userID st in
  let st := refresh_read_deadline now client st in
  '(status, st) ← reader_loop userID client inputs st;
  match status with
  | Reading => Done (Reading, st)
  | Broke => st ← cleanup userID client st; Done (Broke, st)
  end.


(* How one step changes the queue and the transport of the cell [p]. *)
Inductive queue_change (ev : Event) (p : ptr) (c c' : Client) : Prop :=
  | qc_same :
      buf (Send c') = buf (Send c) → written (conn c') = written (conn c) →
      queue_change ev p c c'
  | qc_pushed (f : Payload) :
      buf (Send c') = buf (Send c) ++ [f] → written (conn c') = written (conn c) →
      length (buf (Send c)) < cap (Send c) →
      queue_change ev p c c'
  | qc_wrote (m : Payload) :
      buf (Send c) = m :: buf (Send c') → written (conn c') = written (conn c) ++ [m] →
      queue_change ev p c c'
  | qc_lost (m : Payload) (now : Time) (write_ok : bool) :
      buf (Send c) = m :: buf (Send c') → written (conn c') = written (conn c) →
      ev = EvWriter p now write_ok →
      write_ok = false ∨ conn_closed (conn c) = true →
      queue_change ev p c c'.

(* What a broadcast does to each cell: nothing, or one frame pushed on the
   queue of a registered session that had room for it. *)
Definition untouched_or_pushed (st st' : Hub) : Prop :=
  ∀ p, heap st' !! p = heap st !! p
       ∨ ∃ c f u, heap st !! p = Some c ∧ heap st' !! p = Some (push f c)
                  ∧ is_full (Send c) = false ∧ clients_m st !! u = Some p.

(* The step left the queue, its capacity and the frames written alone. *)
Definition same_queue (c c' : Client) : Prop :=
  buf (Send c') = buf (Send c) ∧ cap (Send c') = cap (Send c)
  ∧ written (conn c') = written (conn c).

(* The chat document after $set updatedAt. *)
Definition touched (t : Time) (c : Chat) : Chat :=
  mkChat (chat_ChatID c) (Participants c) (chat_CreatedAt c) t (EntityType c) (EntityId c).

(* Every queue holds at most as many frames as its channel has slots. *)
Definition queues_bounded (st : Hub) : Prop :=
  ∀ p c, heap st !! p = Some c →
    length (buf (Send c)) ≤ cap (Send c) ∧ cap (Send c) = sendQueueSize.

(* The part of a chat document that decides membership. *)
Definition membership (st : Hub) : list (string * list string) :=
  (λ c, (chat_ChatID c, Participants c)) <$> MereCollection st.

(* --------------------------------------------------------------------- *)
(*  Scenarios used as concrete instances                                  *)
(* --------------------------------------------------------------------- *)

Module Scenario.

(* A store in which every call succeeds. *)
Definition calm : Env := mkEnv 1000 1001 false false false false.

(* The store refuses the update of updatedAt, resp. the insert. *)
Definition update_down : Env := mkEnv 1000 1001 false false true false.
Definition insert_down : Env := mkEnv 1000 1001 false true false false.

(* Room "c1" with alice, bob and dave; mallory and carol are not members. *)
Definition room_c1 : Chat := mkChat "c1" ["alice"; "bob"; "dave"] 0 0 "" "".

Definition envelope (type chatid content : string) : IncomingWSMessage :=
  mkIncoming type chatid content "" "" true "".

Definition after (evs : list Event) : Hub :=
  match run evs (initial [room_c1]) with
  | Done st => st
  | Panic _ => initial [room_c1]
  end.

(* alice is session 0, bob session 1, carol session 2. *)
Definition logins : list Event :=
  [EvConnect "alice" 10; EvConnect "bob" 20; EvConnect "carol" 30].

Definition three_online : Hub := after logins.

(* carol announces her presence 256 times, which fills all three queues;
   the writer of alice then drains hers. bob and carol are left with full
   queues, alice with an empty one. *)
Definition congestion : list Event :=
  logins
  ++ replicate 256 (EvReceive 2 (envelope "presence" "" "") calm)
  ++ replicate 256 (EvWriter 0 40 true).

Definition bob_congested : Hub := after congestion.

(* A stand-in for strings.TrimSpace that strips the ASCII blanks, tabs and
   line ends. *)
Definition is_blank (a : Ascii.ascii) : bool :=
  bool_decide (a = " "%char) || bool_decide (a = "009"%char)
  || bool_decide (a = "010"%char) || bool_decide (a = "013"%char).

Fixpoint trim_left (s : string) : string :=
  match s with
  | String a rest => if is_blank a then trim_left rest else s
  | EmptyString => EmptyString
  end.

Definition trim (s : string) : string :=
  String.rev (trim_left (String.rev (trim_left s))).

(* A decimal parser for unsigned query values of at most a few digits. *)
Definition digit (a : Ascii.ascii) : option Z :=
  let n := Z.of_nat (Ascii.nat_of_ascii a) in
  if bool_decide (48 ≤ n ≤ 57)%Z then Some (n - 48)%Z else None.

Fixpoint digits (acc : Z) (s : string) : option Z :=
  match s with
  | EmptyString => Some acc
  | String a rest =>
      match digit a with
      | Some d => digits (10 * acc + d)%Z rest
      | None => None
      end
  end.

Definition parse_decimal (s : string) : option Z :=
  match s with
  | EmptyString => None
  | String "-" rest => Z.opp <$> (if bool_decide (rest = "") then None else digits 0 rest)
  | _ => digits 0 s
  end.

(* alice logs in twice, then bob: session 0 of alice is superseded by her
   session 1, bob is session 2. *)
Definition second_login : Hub :=
  after [EvConnect "alice" 10; EvConnect "alice" 20; EvConnect "bob" 30].

End Scenario.

(* ===================================================================== *)
(*  Properties                                                            *)
(* ===================================================================== *)

(* --------------------------------------------------------------------- *)
(*  Target resolution                                                     *)
(* --------------------------------------------------------------------- *)

Lemma resolve_from (m : gmap string ptr) (ps : list string)
    (acc : gmap string ptr) (u : string) (c : ptr) :
  (∀ v d, acc !! v = Some d → m !! v = Some d) →
  foldl (λ targets p, match m !! p with
                      | Some c => <[p := c]> targets
                      | None => targets
                      end) acc ps !! u = Some c ↔
  (u ∈ ps ∧ m !! u = Some c) ∨ acc !! u = Some c.
Proof.
  revert acc. induction ps as [|p ps IH]; intros acc Hacc; simpl.
  - rewrite elem_of_nil. tauto.
  - rewrite IH, elem_of_cons.
    + destruct (m !! p) as [d|] eqn:Hp.
      * rewrite lookup_insert. case_decide as Hd.
        -- subst u. split.
           ++ intros [[Hin Hm]|Heq]; left; (split; [tauto | congruence]).
           ++ intros [[_ Hm]|Ha]; right; [|apply Hacc in Ha]; congruence.
        -- intuition congruence.
      * intuition (subst; congruence).
    + intros v d. destruct (m !! p) as [d'|] eqn:Hp; [|by auto].
      rewrite lookup_insert. case_decide; subst; [congruence | by auto].
Qed.

Lemma resolve_targets_lookup (m : gmap string ptr) (ps : list string)
    (u : string) (c : ptr) :
  resolve_targets m ps !! u = Some c ↔ u ∈ ps ∧ m !! u = Some c.
Proof.
  unfold resolve_targets. rewrite resolve_from.
  - rewrite lookup_empty. intuition discriminate.
  - intros v d. by rewrite lookup_empty.
Qed.

(* --------------------------------------------------------------------- *)
(*  Non-blocking delivery                                                 *)
(* --------------------------------------------------------------------- *)

Lemma update_cell_lookup p f st q :
  heap (update_cell p f st) !! q =
  if decide (p = q) then f <$> heap st !! q else heap st !! q.
Proof.
  unfold update_cell, set_heap. simpl.
  destruct (heap st !! p) as [c|] eqn:Hp.
  - case_decide as Hpq.
    + subst q. rewrite list_lookup_insert_eq; [by rewrite Hp|].
      by eapply lookup_lt_Some.
    + by rewrite list_lookup_insert_ne.
  - case_decide as Hpq; [subst q; by rewrite Hp | done].
Qed.

Lemma deliver_identity payload c :
  closed (Send c) = false → same_identity c (deliver payload c).
Proof.
  intros Hc. unfold deliver, same_identity, push, set_Send.
  destruct (is_full (Send c)); simpl; auto.
Qed.

Section delivery.
Context {X : Type} (who : X → ptr) (dropped : X → Client → LogLine).
Variable payload : Payload.

Local Abbreviation drop_line := (drop_line who dropped).

Lemma send_or_drop_open x st c :
  heap st !! who x = Some c → closed (Send c) = false →
  send_or_drop who dropped payload x st =
    Done (if is_full (Send c) then log (dropped x c) st
          else set_heap (λ h, <[who x := push payload c]> h) st).
Proof.
  intros Hc Hopen. unfold send_or_drop, try_send. rewrite Hc, Hopen.
  destruct (is_full (Send c)); [done|].
  unfold update_cell, set_heap. simpl. by rewrite Hc.
Qed.

Lemma send_each_open (l : list X) : ∀ st,
  NoDup (who <$> l) →
  (∀ x, x ∈ l → is_open st (who x)) →
  ∃ st', send_each who dropped payload l st = Done st'
    ∧ clients_m st' = clients_m st
    ∧ MereCollection st' = MereCollection st
    ∧ MessagesCollection st' = MessagesCollection st
    ∧ next_oid st' = next_oid st
    ∧ (∀ p, heap st' !! p =
            if decide (p ∈ who <$> l) then deliver payload <$> heap st !! p
            else heap st !! p)
    ∧ logs st' = logs st ++ omap (drop_line st) l.
Proof.
  induction l as [|x l IH]; intros st Hnd Hopen.
  - exists st. simpl. rewrite app_nil_r. repeat split; done.
  - rewrite fmap_cons in Hnd. apply NoDup_cons in Hnd as [Hx Hnd].
    destruct (Hopen x) as (c & Hc & Hcl); [by left|].
    simpl. rewrite (send_or_drop_open x st c Hc Hcl). simpl.
    set (st1 := if is_full (Send c) then log (dropped x c) st
                else set_heap (λ h, <[who x := push payload c]> h) st).
    assert (Hheap1 : ∀ p, heap st1 !! p =
              if decide (p = who x) then Some (deliver payload c) else heap st !! p).
    { intros p. unfold st1, deliver. destruct (is_full (Send c)); simpl.
      - case_decide; [by subst|done].
      - case_decide as Hp.
        + subst p. apply list_lookup_insert_eq. by eapply lookup_lt_Some.
        + by apply list_lookup_insert_ne. }
    assert (Hrest : ∀ y, y ∈ l → heap st1 !! who y = heap st !! who y).
    { intros y Hy. rewrite Hheap1. case_decide as Hp; [|done].
      exfalso. apply Hx. rewrite <- Hp. apply list_elem_of_fmap. by exists y. }
    assert (Hopen1 : ∀ y, y ∈ l → is_open st1 (who y)).
    { intros y Hy. destruct (Hopen y) as (cy & Hcy & Hcly); [by right|].
      exists cy. by rewrite Hrest. }
    destruct (IH st1 Hnd Hopen1)
      as (st' & Hrun & Hm & Hmere & Hmsg & Hoid & Hheap & Hlog).
    exists st'. split; [exact Hrun|].
    assert (Hst1 : clients_m st1 = clients_m st ∧ MereCollection st1 = MereCollection st
                   ∧ MessagesCollection st1 = MessagesCollection st
                   ∧ next_oid st1 = next_oid st).
    { unfold st1. by destruct (is_full (Send c)). }
    destruct Hst1 as (E1 & E2 & E3 & E4).
    rewrite Hm, Hmere, Hmsg, Hoid. repeat split; try done.
    + intros p. rewrite Hheap, !Hheap1.
      destruct (decide (p = who x)) as [->|Hne].
      * rewrite (decide_False (P := who x ∈ who <$> l)) by done.
        try rewrite (decide_True (P := who x = who x)) by done.
        destruct (decide _) as [Hin|Hin]; [by rewrite Hc|].
        exfalso. apply Hin, elem_of_cons. by left.
      * try rewrite (decide_False (P := p = who x)) by done.
        destruct (decide (p ∈ who <$> l)) as [Hin|Hnin];
          destruct (decide _) as [Hin'|Hin']; try done.
        -- exfalso. apply Hin', elem_of_cons. by right.
        -- exfalso. apply elem_of_cons in Hin' as [?|?]; done.
    + rewrite Hlog. simpl.
      assert (Hom : omap (drop_line st1) l = omap (drop_line st) l).
      { clear -Hrest. induction l as [|y l IHl]; [done|].
        assert (Hy : drop_line st1 y = drop_line st y).
        { unfold drop_line. rewrite Hrest; [done | by left]. }
        simpl. rewrite Hy.
        change (list_omap X LogLine) with (@omap list _ X LogLine).
        rewrite IHl; [done|]. intros z Hz. apply Hrest. by right. }
      rewrite Hom.
      assert (Hx' : drop_line st x =
                    if is_full (Send c) then Some (dropped x c) else None).
      { unfold drop_line. by rewrite Hc. }
      rewrite Hx'. unfold st1. destruct (is_full (Send c)); simpl; [|done].
      by rewrite <- app_assoc.
Qed.

(* The order in which the recipients are visited does not matter: Go ranges
   over the targets map in an unspecified order, and every order gives the
   same queues and the same drop lines up to their order. *)
Lemma send_each_any_order (l l' : list X) st :
  l ≡ₚ l' →
  NoDup (who <$> l) →
  (∀ x, x ∈ l → is_open st (who x)) →
  ∃ st1 st2, send_each who dropped payload l st = Done st1
    ∧ send_each who dropped payload l' st = Done st2
    ∧ heap st1 = heap st2
    ∧ clients_m st1 = clients_m st2
    ∧ logs st1 ≡ₚ logs st2.
Proof.
  intros Hperm Hnd Hopen.
  assert (Hnd' : NoDup (who <$> l')) by (by rewrite <- Hperm).
  assert (Hopen' : ∀ x, x ∈ l' → is_open st (who x)).
  { intros x Hx. apply Hopen. by rewrite Hperm. }
  destruct (send_each_open l st Hnd Hopen)
    as (st1 & Hrun1 & Hm1 & _ & _ & _ & Hheap1 & Hlog1).
  destruct (send_each_open l' st Hnd' Hopen')
    as (st2 & Hrun2 & Hm2 & _ & _ & _ & Hheap2 & Hlog2).
  exists st1, st2. split; [done|]. split; [done|]. split; [|split].
  - apply list_eq. intros p. rewrite Hheap1, Hheap2.
    destruct (decide (p ∈ who <$> l)) as [Hin|Hnin].
    + rewrite decide_True; [done | by rewrite <- Hperm].
    + rewrite decide_False; [done | by rewrite <- Hperm].
  - congruence.
  - rewrite Hlog1, Hlog2. by rewrite Hperm.
Qed.
End delivery.

(* --------------------------------------------------------------------- *)
(*  The registry invariant                                                *)
(* --------------------------------------------------------------------- *)

Lemma same_identity_refl c : same_identity c c.
Proof. by unfold same_identity. Qed.

Lemma registry_ok_extends st st' :
  clients_m st' = clients_m st → heap_extends st st' →
  registry_ok st → registry_ok st'.
Proof.
  intros Hm Hext Hok u p Hp. rewrite Hm in Hp.
  destruct (Hok u p Hp) as (c & Hc & Hu & Hcl & Hcap).
  destruct (Hext p c Hc) as (c' & Hc' & Hid & Hcl' & Hcap').
  exists c'. split; [done|]. repeat split; congruence.
Qed.

Lemma registry_ok_inj st u u' p :
  registry_ok st → clients_m st !! u = Some p → clients_m st !! u' = Some p → u = u'.
Proof.
  intros Hok H1 H2.
  destruct (Hok u p H1) as (c & Hc & Hu & _).
  destruct (Hok u' p H2) as (c' & Hc' & Hu' & _).
  congruence.
Qed.

Lemma registry_ok_open st u p :
  registry_ok st → clients_m st !! u = Some p → is_open st p.
Proof. intros Hok Hp. destruct (Hok u p Hp) as (c & ? & _ & ? & _). by exists c. Qed.

Lemma NoDup_submap_ptrs st (t : gmap string ptr) :
  registry_ok st → (∀ u p, t !! u = Some p → clients_m st !! u = Some p) →
  NoDup ((map_to_list t).*2).
Proof.
  intros Hok Hsub. apply NoDup_fmap_2_strong; [|apply NoDup_map_to_list].
  intros [u p] [u' p'] H1 H2 Heq. simpl in Heq. subst p'.
  apply elem_of_map_to_list in H1, H2.
  f_equal. eapply registry_ok_inj; eauto.
Qed.

Lemma elem_of_map_ptrs (t : gmap string ptr) (p : ptr) :
  p ∈ (map_to_list t).*2 ↔ ∃ u, t !! u = Some p.
Proof.
  rewrite list_elem_of_fmap. split.
  - intros ([u q] & -> & Hin). exists u. by apply elem_of_map_to_list.
  - intros (u & Hu). exists (u, p). split; [done|]. by apply elem_of_map_to_list.
Qed.

Lemma registry_ok_initial chats : registry_ok (initial chats).
Proof. intros u p H. simpl in H. by rewrite lookup_empty in H. Qed.

(* Delivery only touches buffers. *)
Lemma heap_extends_deliver payload (l : list ptr) st st' :
  (∀ p, p ∈ l → is_open st p) →
  (∀ p, heap st' !! p =
        if decide (p ∈ l) then deliver payload <$> heap st !! p else heap st !! p) →
  heap_extends st st'.
Proof.
  intros Hopen Hheap p c Hc. rewrite Hheap. destruct (decide (p ∈ l)) as [Hin|Hnin].
  - rewrite Hc. simpl. eexists. split; [done|].
    apply deliver_identity. destruct (Hopen p Hin) as (c' & Hc' & Hcl). congruence.
  - exists c. split; [done | apply same_identity_refl].
Qed.

Section broadcast_facts.
Variables (e : Env) (payload : Payload) (st : Hub).
Hypothesis Hok : registry_ok st.

Lemma broadcastToChat_found cid chat :
  FindOne e cid st = Some chat →
  let targets := resolve_targets (clients_m st) (Participants chat) in
  ∃ st', broadcastToChat e cid payload st = Done st'
    ∧ clients_m st' = clients_m st
    ∧ MereCollection st' = MereCollection st
    ∧ MessagesCollection st' = MessagesCollection st
    ∧ next_oid st' = next_oid st
    ∧ (∀ p, heap st' !! p =
            if decide (p ∈ (map_to_list targets).*2)
            then deliver payload <$> heap st !! p else heap st !! p)
    ∧ logs st' = logs st ++
        omap (drop_line snd (λ x _, LogDropping (fst x)) st) (map_to_list targets).
Proof.
  intros Hfind targets. unfold broadcastToChat. rewrite Hfind.
  assert (Hsub : ∀ u p, targets !! u = Some p → clients_m st !! u = Some p).
  { intros u p Hu. by apply resolve_targets_lookup in Hu as [_ ?]. }
  apply send_each_open.
  - by apply (NoDup_submap_ptrs st).
  - intros [u p] Hin. apply elem_of_map_to_list in Hin. simpl.
    eapply registry_ok_open; eauto.
Qed.

Lemma broadcastGlobal_ok :
  ∃ st', broadcastGlobal payload st = Done st'
    ∧ clients_m st' = clients_m st
    ∧ MereCollection st' = MereCollection st
    ∧ MessagesCollection st' = MessagesCollection st
    ∧ next_oid st' = next_oid st
    ∧ (∀ p, heap st' !! p =
            if decide (p ∈ (map_to_list (clients_m st)).*2)
            then deliver payload <$> heap st !! p else heap st !! p)
    ∧ logs st' = logs st ++
        omap (drop_line id (λ _ c, LogDroppingGlobal (client_UserID c)) st)
             (map_to_list (clients_m st)).*2.
Proof.
  unfold broadcastGlobal.
  destruct (send_each_open id (λ _ c, LogDroppingGlobal (client_UserID c)) payload
              (map_to_list (clients_m st)).*2 st)
    as (st' & Hrun & Hm & H1 & H2 & H3 & Hheap & Hlog).
  - rewrite list_fmap_id. by apply (NoDup_submap_ptrs st).
  - intros p Hin. apply elem_of_map_ptrs in Hin as [u Hu].
    eapply registry_ok_open; eauto.
  - exists st'. rewrite list_fmap_id in Hheap. done.
Qed.
End broadcast_facts.

(* --------------------------------------------------------------------- *)
(*  Every step keeps the registry invariant and none panics               *)
(* --------------------------------------------------------------------- *)

Lemma heap_extends_insert st p c c' :
  heap st !! p = Some c → same_identity c c' →
  heap_extends st (set_heap (λ h, <[p := c']> h) st).
Proof.
  intros Hc Hid q d Hd. simpl. destruct (decide (p = q)) as [->|Hne].
  - exists c'. rewrite list_lookup_insert_eq by (by eapply lookup_lt_Some).
    split; [done | congruence].
  - exists d. rewrite list_lookup_insert_ne by done.
    split; [done | apply same_identity_refl].
Qed.

Lemma heap_extends_update_cell p f st :
  (∀ c, same_identity c (f c)) → heap_extends st (update_cell p f st).
Proof.
  intros Hf q d Hd. rewrite update_cell_lookup, Hd.
  case_decide; simpl; eexists; (split; [done|]); [apply Hf | apply same_identity_refl].
Qed.

Lemma registry_ok_log l st : registry_ok st → registry_ok (log l st).
Proof. intros Hok. exact Hok. Qed.

Lemma registry_ok_connect userID st :
  registry_ok st → registry_ok (connect userID st).2.
Proof.
  intros Hok u p Hp. unfold connect, register in *. simpl in *.
  rewrite lookup_insert in Hp. case_decide as Hu.
  - inversion Hp; subst. exists (new_Client u).
    rewrite lookup_app_r by lia. rewrite Nat.sub_diag. done.
  - destruct (Hok u p Hp) as (c & Hc & ?). exists c.
    split; [|done]. rewrite lookup_app_l; [done | by eapply lookup_lt_Some].
Qed.

Lemma registry_ok_refresh now client st :
  registry_ok st → registry_ok (refresh_read_deadline now client st).
Proof.
  apply registry_ok_extends; [done|].
  apply heap_extends_update_cell. intros c. by unfold same_identity.
Qed.

Lemma registry_ok_writer_step now ok client st :
  registry_ok st → registry_ok (writer_step now ok client st).
Proof.
  unfold writer_step. destruct (heap st !! client) as [c|] eqn:Hc; [|done].
  destruct (writer_returned c); [done|].
  destruct (buf (Send c)) as [|msg rest] eqn:Hbuf.
  - destruct (closed (Send c)); [|done].
    apply registry_ok_extends; [done|].
    eapply heap_extends_insert; [done|]. by unfold same_identity.
  - destruct (ok && _).
    + apply registry_ok_extends; [done|].
      eapply heap_extends_insert; [done|]. by unfold same_identity.
    + intros Hok. apply registry_ok_log. revert Hok.
      apply registry_ok_extends; [done|].
      eapply heap_extends_insert; [done|]. by unfold same_identity.
Qed.

Lemma registry_ok_heartbeat_tick t1 t2 ok client st :
  registry_ok st → registry_ok (heartbeat_tick t1 t2 ok client st).
Proof.
  unfold heartbeat_tick. destruct (heap st !! client) as [c|] eqn:Hc; [|done].
  destruct (heartbeat_returned c); [done|].
  destruct (done_closed c).
  - apply registry_ok_extends; [done|].
    eapply heap_extends_insert; [done|]. by unfold same_identity.
  - apply registry_ok_extends; [done|].
    eapply heap_extends_insert; [done|]. by destruct (ok && _).
Qed.

Lemma unregister_ok userID st :
  registry_ok st →
  ∃ st', unregister userID st = Done st' ∧ registry_ok st'
         ∧ clients_m st' = delete userID (clients_m st).
Proof.
  intros Hok. unfold unregister.
  destruct (clients_m st !! userID) as [c|] eqn:Hu.
  2: { exists st. repeat split; [done|]. symmetry. by apply delete_id. }
  destruct (Hok userID c Hu) as (cl & Hcl & Hid & Hopen & _). simpl. rewrite Hcl.
  unfold close_chan. rewrite Hopen. simpl. eexists. split; [done|].
  split; [|done].
  intros u p Hp. simpl in Hp.
  rewrite lookup_delete in Hp. case_decide as Hne; [done|].
  destruct (Hok u p Hp) as (c' & Hc' & Hid' & Hopen' & Hcap').
  assert (c ≠ p) by (intros ->; congruence).
  exists c'. rewrite update_cell_lookup. rewrite decide_False by done. done.
Qed.

Lemma cleanup_ok userID self st :
  registry_ok st → ∃ st', cleanup userID self st = Done st' ∧ registry_ok st'.
Proof.
  intros Hok. unfold cleanup.
  set (st0 := update_cell self _ st).
  assert (Hok0 : registry_ok st0).
  { revert Hok. apply registry_ok_extends; [done|].
    apply heap_extends_update_cell. intros c. by unfold same_identity. }
  destruct (unregister_ok userID st0 Hok0) as (st1 & Hun & Hok1 & _).
  rewrite Hun. simpl. eexists. split; [done|].
  apply registry_ok_log. revert Hok1.
  apply registry_ok_extends; [done|].
  apply heap_extends_update_cell. intros c. by unfold same_identity.
Qed.

Lemma UpdateOne_frame e cid t st :
  clients_m (UpdateOne e cid t st) = clients_m st
  ∧ heap (UpdateOne e cid t st) = heap st
  ∧ MessagesCollection (UpdateOne e cid t st) = MessagesCollection st
  ∧ logs (UpdateOne e cid t st) = logs st.
Proof. unfold UpdateOne. by destruct (UpdateOne_fails e). Qed.

Lemma persistMessage_frame e chatID sender content mediaURL mediaType st :
  let st' := (persistMessage e chatID sender content mediaURL mediaType st).2 in
  clients_m st' = clients_m st ∧ heap st' = heap st ∧ logs st' = logs st.
Proof.
  unfold persistMessage, InsertOne.
  destruct (_ && _); [done|]. destruct (InsertOne_fails e); [done|]. simpl.
  destruct (UpdateOne_frame e chatID (now_updated e)
    (mkHub (clients_m st) (heap st) (MereCollection st)
       (MessagesCollection st ++
          [mkMessage (next_oid st) chatID sender content
             (if negb (bool_decide (mediaURL = "")) && negb (bool_decide (mediaType = ""))
              then Some (mkMedia mediaURL mediaType) else None) (now_created e)])
       (S (next_oid st)) (logs st))) as (H1 & H2 & _ & H4).
  by rewrite H1, H2, H4.
Qed.

Lemma registry_ok_frame st st' :
  clients_m st' = clients_m st → heap st' = heap st →
  registry_ok st → registry_ok st'.
Proof. intros Hm Hh Hok u p. rewrite Hm, Hh. apply Hok. Qed.

Lemma broadcastToChat_ok e cid payload st :
  registry_ok st →
  ∃ st', broadcastToChat e cid payload st = Done st' ∧ registry_ok st'.
Proof.
  intros Hok. destruct (FindOne e cid st) as [chat|] eqn:Hfind.
  - destruct (broadcastToChat_found e payload st Hok cid chat Hfind)
      as (st' & Hrun & Hm & _ & _ & _ & Hheap & _).
    exists st'. split; [done|].
    apply (registry_ok_extends st); [done| |done].
    eapply heap_extends_deliver; [|exact Hheap].
    intros p [u Hu]%elem_of_map_ptrs.
    apply resolve_targets_lookup in Hu as [_ Hu]. eapply registry_ok_open; eauto.
  - unfold broadcastToChat. rewrite Hfind. eexists. split; [done|].
    by apply registry_ok_log.
Qed.

Lemma broadcastGlobal_preserves payload st :
  registry_ok st →
  ∃ st', broadcastGlobal payload st = Done st' ∧ registry_ok st'.
Proof.
  intros Hok.
  destruct (broadcastGlobal_ok payload st Hok) as (st' & Hrun & Hm & _ & _ & _ & Hheap & _).
  exists st'. split; [done|].
  apply (registry_ok_extends st); [done| |done].
  eapply heap_extends_deliver; [|exact Hheap].
  intros p [u Hu]%elem_of_map_ptrs. eapply registry_ok_open; eauto.
Qed.

Lemma handleIncomingMessage_ok e client in_ st userID :
  registry_ok st → in_reader_loop st client = Some userID →
  ∃ st', handleIncomingMessage e client in_ st = Done st' ∧ registry_ok st'.
Proof.
  intros Hok Hloop. unfold handleIncomingMessage. unfold in_reader_loop in Hloop.
  destruct (heap st !! client) as [c|]; [|done].
  destruct (CountDocuments e (ChatID in_) (client_UserID c) st) as [[|n]|].
  - eexists. split; [done|]. by apply registry_ok_log.
  - destruct (persistMessage e (ChatID in_) (client_UserID c) (Content in_)
                (MediaURL in_) (MediaType in_) st) as [[msg|err] st1] eqn:Hp.
    + apply broadcastToChat_ok.
      pose proof (persistMessage_frame e (ChatID in_) (client_UserID c) (Content in_)
                    (MediaURL in_) (MediaType in_) st) as Hf.
      rewrite Hp in Hf. simpl in Hf. destruct Hf as (H1 & H2 & _).
      by eapply registry_ok_frame.
    + eexists. split; [done|]. apply registry_ok_log.
      pose proof (persistMessage_frame e (ChatID in_) (client_UserID c) (Content in_)
                    (MediaURL in_) (MediaType in_) st) as Hf.
      rewrite Hp in Hf. simpl in Hf. destruct Hf as (H1 & H2 & _).
      by eapply registry_ok_frame.
  - eexists. split; [done|]. by apply registry_ok_log.
Qed.

Lemma dispatch_ok e userID client in_ st :
  registry_ok st → in_reader_loop st client = Some userID →
  ∃ st', dispatch e userID client in_ st = Done st' ∧ registry_ok st'.
Proof.
  intros Hok Hloop. unfold dispatch.
  destruct (String.eqb (Type_ in_) "message").
  { by eapply handleIncomingMessage_ok. }
  destruct (String.eqb (Type_ in_) "typing").
  { by apply broadcastToChat_ok. }
  destruct (String.eqb (Type_ in_) "presence").
  { by apply broadcastGlobal_preserves. }
  eexists. split; [done|]. by apply registry_ok_log.
Qed.

Lemma step_ok ev st :
  registry_ok st → ∃ st', step ev st = Done st' ∧ registry_ok st'.
Proof.
  intros Hok. destruct ev as [userID now|client in_ e|client|client now|client now ok|client t1 t2 ok];
    simpl.
  - eexists. split; [done|].
    apply registry_ok_refresh. by apply (registry_ok_connect userID st).
  - destruct (in_reader_loop st client) as [userID|] eqn:Hloop; [|by eauto].
    by apply dispatch_ok.
  - destruct (in_reader_loop st client) as [userID|] eqn:Hloop; [|by eauto].
    apply cleanup_ok. by apply registry_ok_log.
  - destruct (in_reader_loop st client); [|by eauto].
    eexists. split; [done|]. by apply registry_ok_refresh.
  - eexists. split; [done|]. by apply registry_ok_writer_step.
  - eexists. split; [done|]. by apply registry_ok_heartbeat_tick.
Qed.

Lemma run_ok evs : ∀ st,
  registry_ok st → ∃ st', run evs st = Done st' ∧ registry_ok st'.
Proof.
  induction evs as [|ev evs IH]; intros st Hok; simpl.
  - by eauto.
  - destruct (step_ok ev st Hok) as (st1 & -> & Hok1). simpl. by apply IH.
Qed.

Lemma reachable_registry_ok st : reachable st → registry_ok st.
Proof.
  intros (chats & evs & Hrun).
  destruct (run_ok evs (initial chats) (registry_ok_initial chats))
    as (st' & Hrun' & Hok).
  rewrite Hrun in Hrun'. by inversion Hrun'; subst.
Qed.

(* ===================================================================== *)
(*  The registry: installation and teardown                               *)
(* ===================================================================== *)

(** X7. The deferred function deletes whatever session the registry holds
    for the user; it never compares that session with its own client. So once
    the cleanup of any activation for userID has run, the registry has no entry
    for userID, whichever session was registered. *)
Lemma cleanup_removes_any_session userID self st :
  registry_ok st →
  ∃ st', cleanup userID self st = Done st' ∧ lookup_session userID st' = None.
Proof.
  intros Hok. unfold cleanup.
  set (st0 := update_cell self _ st).
  assert (Hok0 : registry_ok st0).
  { apply (registry_ok_extends st); [done| |done].
    apply heap_extends_update_cell. intros c. by unfold same_identity. }
  destruct (unregister_ok userID st0 Hok0) as (st1 & Hun & _ & Hm).
  rewrite Hun. simpl. eexists. split; [done|].
  unfold lookup_session. simpl. rewrite Hm. apply lookup_delete_eq.
Qed.

(** C1 (the code departs from the claim). Two logins of "alice": session 0,
    then session 1, which replaces it in the registry. When the reader loop of
    session 0 ends, its deferred cleanup finds session 1 under the key, deletes
    that entry and closes the Send channel of session 1; the Send channel of
    session 0 itself is never closed. The lookup of "alice" then gives nothing,
    where the claim requires it to give session 1. *)
Theorem teardown_of_superseded_session_evicts_successor :
  ∃ st2 st3,
    run [EvConnect "alice" 0; EvConnect "alice" 1] empty_hub = Done st2
    ∧ lookup_session "alice" st2 = Some 1
    ∧ step (EvReadError 0) st2 = Done st3
    ∧ lookup_session "alice" st3 = None
    ∧ (closed ∘ Send) <$> heap st3 !! 1 = Some true
    ∧ (conn_closed ∘ conn) <$> heap st3 !! 1 = Some false
    ∧ (closed ∘ Send) <$> heap st3 !! 0 = Some false.
Proof.
  eexists. eexists. split; [vm_compute; reflexivity|].
  split; [vm_compute; reflexivity|].
  split; [vm_compute; reflexivity|]. repeat split; vm_compute; reflexivity.
Qed.

(** C2, against the claim as stated: "alice" is mapped to session 0 and logs
    in again. The new session 1 is installed, session 0 is not handed to
    anyone and is not terminated: its transport and its Send channel stay
    open, and the registry no longer names it. *)
Lemma connect_leaves_superseded_session_running :
  let st := (connect "alice" empty_hub).2 in
  lookup_session "alice" st = Some 0
  ∧ lookup_session "alice" (connect "alice" st).2 = Some 1
  ∧ terminated (connect "alice" st).2 0 = false.
Proof. repeat split; vm_compute; reflexivity. Qed.

(** C2, amended: for every userID, registration installs the new session as
    the current mapping for that userID, overwriting any earlier mapping. It
    hands nothing back to its caller, and every session that existed before,
    the superseded one included, is left exactly as it was: neither its
    transport nor its outbound queue is closed. The mappings of other users
    are unchanged. *)
Theorem connect_installs_and_leaves_superseded userID st :
  let client := (connect userID st).1 in
  let st' := (connect userID st).2 in
  lookup_session userID st' = Some client
  ∧ heap st' !! client = Some (new_Client userID)
  ∧ heap st !! client = None
  ∧ (∀ u, u ≠ userID → lookup_session u st' = lookup_session u st)
  ∧ (∀ p c, heap st !! p = Some c → heap st' !! p = Some c)
  ∧ (∀ p, terminated st p = true ↔ terminated st' p = true).
Proof.
  unfold connect, register, lookup_session. simpl.
  assert (Hold : ∀ p c, heap st !! p = Some c →
                        (heap st ++ [new_Client userID]) !! p = Some c).
  { intros p c Hc. rewrite lookup_app_l; [done | by eapply lookup_lt_Some]. }
  repeat split.
  - apply lookup_insert_eq.
  - rewrite lookup_app_r by lia. by rewrite Nat.sub_diag.
  - by apply lookup_ge_None.
  - intros u Hu. by apply lookup_insert_ne.
  - exact Hold.
  - unfold terminated. simpl. destruct (heap st !! p) as [c|] eqn:Hc; [|done].
    by rewrite (Hold p c Hc).
  - unfold terminated. simpl. destruct (heap st !! p) as [c|] eqn:Hc.
    + by rewrite (Hold p c Hc).
    + apply lookup_ge_None in Hc.
      destruct (decide (p = length (heap st))) as [->|Hne].
      * rewrite lookup_app_r by lia. rewrite Nat.sub_diag. simpl. done.
      * rewrite lookup_ge_None_2; [done|]. rewrite length_app. simpl. lia.
Qed.

(* ===================================================================== *)
(*  Broadcasting: enqueue or drop                                         *)
(* ===================================================================== *)

Lemma count_ext {A} (f g : A → bool) (l : list A) :
  (∀ x, x ∈ l → f x = g x) → count f l = count g l.
Proof.
  unfold count. induction l as [|x l IH]; intros H; [done|]. simpl.
  rewrite (H x) by (by left).
  destruct (g x); simpl; rewrite IH; try done; intros y Hy; apply H; by right.
Qed.

Lemma count_negb {A} (f : A → bool) (l : list A) :
  count (λ x, negb (f x)) l = length l - count f l.
Proof.
  unfold count. induction l as [|x l IH]; [done|]. simpl.
  pose proof (List.filter_length_le f l).
  destruct (f x); simpl; rewrite IH; lia.
Qed.

Lemma queue_deliver payload st st' p c :
  heap st !! p = Some c → heap st' !! p = Some (deliver payload c) →
  queue st' p = if queue_full st p then queue st p else queue st p ++ [payload].
Proof.
  intros Hc Hc'. unfold queue, queue_full. rewrite Hc, Hc'. unfold deliver.
  by destruct (is_full (Send c)).
Qed.

Lemma enqueued_iff_not_full payload st st' p :
  queue st' p = (if queue_full st p then queue st p else queue st p ++ [payload]) →
  enqueued payload st st' p = negb (queue_full st p).
Proof.
  intros Hq. unfold enqueued. rewrite Hq. destruct (queue_full st p); simpl.
  - apply bool_decide_eq_false. intros Heq.
    apply (f_equal length) in Heq. rewrite length_app in Heq. simpl in Heq. lia.
  - by apply bool_decide_eq_true.
Qed.

Lemma drop_lines_filter {X} (who : X → ptr) (line : X → LogLine) st (l : list X) :
  (∀ x, x ∈ l → is_open st (who x)) →
  omap (drop_line who (λ x _, line x) st) l
  = line <$> List.filter (λ x, queue_full st (who x)) l.
Proof.
  induction l as [|x l IH]; intros Hopen; [done|].
  destruct (Hopen x) as (c & Hc & _); [by left|].
  assert (Hd : drop_line who (λ x _, line x) st x
               = if queue_full st (who x) then Some (line x) else None).
  { unfold drop_line, queue_full. by rewrite Hc. }
  simpl. rewrite Hd.
  change (list_omap X LogLine) with (@omap list _ X LogLine).
  rewrite IH by (intros y Hy; apply Hopen; by right).
  by destruct (queue_full st (who x)).
Qed.

Lemma elem_of_targets_of st chat u p :
  (u, p) ∈ targets_of st chat ↔ u ∈ Participants chat ∧ lookup_session u st = Some p.
Proof.
  unfold targets_of, lookup_session.
  rewrite elem_of_map_to_list. apply resolve_targets_lookup.
Qed.

Lemma queue_full_spec st u p :
  registry_ok st → lookup_session u st = Some p →
  queue_full st p = true ↔ sendQueueSize ≤ length (queue st p).
Proof.
  intros Hok Hp. destruct (Hok u p Hp) as (c & Hc & _ & _ & Hcap).
  unfold queue_full, queue, is_full. rewrite Hc, Hcap.
  by rewrite bool_decide_eq_true.
Qed.

(** C3. Backpressure of a room broadcast. In a state that satisfies the
    registry invariant the broadcast always returns (no panic, and the Go
    function has no error result). When the room is found, the recipients
    are the k registered participants; with q of them having a full queue
    (length at least sendQueueSize), each of the others gets the frame at the
    tail of its queue, each full queue is left as it was and one drop line is
    logged for it: k - q enqueues, q drops. If every recipient's queue is
    empty, all k receive the frame. Queues of sessions that are not recipients
    are untouched. The drop lines are given up to their order, which in Go
    follows the iteration order of the targets map. *)
Theorem broadcastToChat_backpressure e cid payload st :
  registry_ok st →
  returns (broadcastToChat e cid payload st)
  ∧ ∀ chat, FindOne e cid st = Some chat →
    let targets := targets_of st chat in
    let k := length targets in
    let q := count (λ x, queue_full st x.2) targets in
    (∀ u p, (u, p) ∈ targets ↔ u ∈ Participants chat ∧ lookup_session u st = Some p)
    ∧ (∀ u p, (u, p) ∈ targets →
         queue_full st p = true ↔ sendQueueSize ≤ length (queue st p))
    ∧ ∃ st', broadcastToChat e cid payload st = Done st'
      ∧ (∀ u p, (u, p) ∈ targets →
           queue st' p = if queue_full st p then queue st p
                         else queue st p ++ [payload])
      ∧ (∀ p, p ∉ targets.*2 → queue st' p = queue st p)
      ∧ count (λ x, enqueued payload st st' x.2) targets = k - q
      ∧ (∃ drops, logs st' = logs st ++ drops
           ∧ drops ≡ₚ (λ x, LogDropping x.1)
                        <$> List.filter (λ x, queue_full st x.2) targets)
      ∧ length (logs st') = length (logs st) + q
      ∧ ((∀ u p, (u, p) ∈ targets → queue st p = []) →
         ∀ u p, (u, p) ∈ targets → queue st' p = [payload]).
Proof.
  intros Hok. split.
  { destruct (broadcastToChat_ok e cid payload st Hok) as (st' & Hrun & _).
    by exists st'. }
  intros chat Hfind targets k q.
  assert (Hopen : ∀ x, x ∈ targets → is_open st x.2).
  { intros [u p] [_ Hp]%elem_of_targets_of. by eapply registry_ok_open. }
  split; [intros u p; apply elem_of_targets_of|].
  split.
  { intros u p [_ Hp]%elem_of_targets_of. by eapply queue_full_spec. }
  destruct (broadcastToChat_found e payload st Hok cid chat Hfind)
    as (st' & Hrun & _ & _ & _ & _ & Hheap & Hlog).
  fold (targets_of st chat) in Hheap, Hlog. fold targets in Hheap, Hlog.
  assert (Hq : ∀ u p, (u, p) ∈ targets →
             queue st' p = if queue_full st p then queue st p
                           else queue st p ++ [payload]).
  { intros u p Hin. destruct (Hopen (u, p) Hin) as (c & Hc & _). simpl in Hc.
    apply (queue_deliver payload st st' p c Hc).
    rewrite Hheap, decide_True, Hc; [done|].
    apply list_elem_of_fmap. by exists (u, p). }
  rewrite (drop_lines_filter snd (λ x, LogDropping x.1) st targets Hopen) in Hlog.
  exists st'. split; [done|]. split; [exact Hq|]. split; [|split; [|split; [|split]]].
  - intros p Hp. unfold queue. by rewrite Hheap, decide_False.
  - rewrite (count_ext _ (λ x, negb (queue_full st x.2))).
    + apply count_negb.
    + intros [u p] Hin. simpl. apply enqueued_iff_not_full. by apply (Hq u).
  - eexists. split; [exact Hlog | done].
  - rewrite Hlog, length_app, length_fmap. done.
  - intros Hempty u p Hin. rewrite (Hq u p Hin).
    assert (Hnf : queue_full st p = false).
    { apply not_true_is_false. intros Hf.
      apply elem_of_targets_of in Hin as Hin'. destruct Hin' as [_ Hp].
      apply (queue_full_spec st u p Hok Hp) in Hf.
      rewrite (Hempty u p Hin) in Hf. simpl in Hf. unfold sendQueueSize in Hf. lia. }
    by rewrite Hnf, (Hempty u p Hin).
Qed.

Lemma after_registry_ok evs : registry_ok (Scenario.after evs).
Proof.
  unfold Scenario.after.
  destruct (run_ok evs (initial [Scenario.room_c1]) (registry_ok_initial _))
    as (st & -> & Hok).
  exact Hok.
Qed.

Lemma broadcastToChat_backpressure_witness :
  let st := Scenario.bob_congested in
  let frame := typing_payload "alice" "c1" in
  let targets := targets_of st Scenario.room_c1 in
  registry_ok st
  ∧ FindOne Scenario.calm "c1" st = Some Scenario.room_c1
  ∧ targets = [("alice", 0); ("bob", 1)]
  ∧ count (λ x, queue_full st x.2) targets = 1
  ∧ ∃ st', broadcastToChat Scenario.calm "c1" frame st = Done st'
      ∧ count (λ x, enqueued frame st st' x.2) targets
        = length targets - count (λ x, queue_full st x.2) targets
      ∧ queue st' 0 = [frame]
      ∧ queue st' 1 = queue st 1.
Proof.
  intros st frame targets.
  assert (Hok : registry_ok st) by apply after_registry_ok.
  assert (Hfind : FindOne Scenario.calm "c1" st = Some Scenario.room_c1)
    by (vm_compute; reflexivity).
  assert (Htargets : targets = [("alice", 0); ("bob", 1)])
    by (vm_compute; reflexivity).
  split; [exact Hok|]. split; [exact Hfind|]. split; [exact Htargets|].
  split; [vm_compute; reflexivity|].
  destruct (proj2 (broadcastToChat_backpressure Scenario.calm "c1" frame st Hok)
              Scenario.room_c1 Hfind)
    as (_ & _ & st' & Hrun & Hq & _ & Hcount & _).
  exists st'. split; [exact Hrun|]. split; [exact Hcount|].
  assert (H0 : ("alice", 0) ∈ targets_of st Scenario.room_c1).
  { fold targets. rewrite Htargets. apply elem_of_cons. by left. }
  assert (H1 : ("bob", 1) ∈ targets_of st Scenario.room_c1).
  { fold targets. rewrite Htargets. apply elem_of_cons. right.
    apply elem_of_cons. by left. }
  split.
  - rewrite (Hq "alice" 0 H0).
    replace (queue_full st 0) with false by (vm_compute; reflexivity).
    replace (queue st 0) with (@nil Payload) by (vm_compute; reflexivity).
    reflexivity.
  - rewrite (Hq "bob" 1 H1).
    replace (queue_full st 1) with true by (vm_compute; reflexivity).
    reflexivity.
Defined.

(* ===================================================================== *)
(*  Presence and typing envelopes                                         *)
(* ===================================================================== *)

Lemma dispatch_presence e userID client in_ st :
  Type_ in_ = "presence" →
  dispatch e userID client in_ st
  = broadcastGlobal (presence_payload userID (Online in_)) st.
Proof. intros H. unfold dispatch. by rewrite H. Qed.

Lemma dispatch_typing e userID client in_ st :
  Type_ in_ = "typing" →
  dispatch e userID client in_ st
  = broadcastToChat e (ChatID in_) (typing_payload userID (ChatID in_)) st.
Proof. intros H. unfold dispatch. by rewrite H. Qed.

Lemma count_true {A} (f : A → bool) (l : list A) :
  (∀ x, x ∈ l → f x = true) → count f l = length l.
Proof.
  unfold count. induction l as [|x l IH]; intros H; [done|]. simpl.
  rewrite (H x) by (by left). simpl. rewrite IH; [done|].
  intros y Hy. apply H. by right.
Qed.

Lemma drop_lines_none {X} (who : X → ptr) (dropped : X → Client → LogLine) st (l : list X) :
  (∀ x, x ∈ l → queue_full st (who x) = false) →
  omap (drop_line who dropped st) l = [].
Proof.
  induction l as [|x l IH]; intros Hnf; [done|].
  assert (Hd : drop_line who dropped st x = None).
  { specialize (Hnf x). unfold drop_line, queue_full in *.
    destruct (heap st !! who x) as [c|]; [|done]. rewrite Hnf; [done | by left]. }
  simpl. rewrite Hd.
  change (list_omap X LogLine) with (@omap list _ X LogLine).
  apply IH. intros y Hy. apply Hnf. by right.
Qed.

(* No registered session has a full queue, in a form that computes. *)
Lemma spare_capacity_from_count st :
  count (λ x, queue_full st x.2) (map_to_list (clients_m st)) = 0 →
  ∀ u p, lookup_session u st = Some p → queue_full st p = false.
Proof.
  unfold count, lookup_session. intros Hcount u p Hp.
  apply elem_of_map_to_list in Hp. revert Hcount Hp.
  induction (map_to_list (clients_m st)) as [|[v q] l IH]; intros Hcount Hp.
  - by apply elem_of_nil in Hp.
  - simpl in Hcount. destruct (queue_full st q) eqn:Hq; [done|].
    apply elem_of_cons in Hp as [Heq|Hin]; [by inversion Heq; subst | by apply IH].
Qed.

(** C4. Presence fan-out. In a state that satisfies the registry invariant
    and in which no registered session has a full queue, a presence envelope
    is handed to broadcastGlobal, which returns and puts the presence frame at
    the tail of the queue of every registered session: all N = size of the
    registry of them, the session of the sender included. Nothing is logged
    and nothing is persisted. *)
Theorem presence_reaches_every_session e userID client in_ st :
  registry_ok st →
  Type_ in_ = "presence" →
  (∀ u p, lookup_session u st = Some p → queue_full st p = false) →
  let frame := presence_payload userID (Online in_) in
  dispatch e userID client in_ st = broadcastGlobal frame st
  ∧ ∃ st', broadcastGlobal frame st = Done st'
    ∧ (∀ u p, lookup_session u st = Some p → queue st' p = queue st p ++ [frame])
    ∧ (lookup_session userID st = Some client →
       queue st' client = queue st client ++ [frame])
    ∧ count (λ x, enqueued frame st st' x.2) (map_to_list (clients_m st))
      = size (clients_m st)
    ∧ clients_m st' = clients_m st
    ∧ logs st' = logs st
    ∧ MessagesCollection st' = MessagesCollection st.
Proof.
  intros Hok Htype Hspare frame.
  split; [by apply dispatch_presence|].
  destruct (broadcastGlobal_ok frame st Hok)
    as (st' & Hrun & Hm & _ & Hmsg & _ & Hheap & Hlog).
  assert (Hq : ∀ u p, lookup_session u st = Some p →
                      queue st' p = queue st p ++ [frame]).
  { intros u p Hp. destruct (Hok u p Hp) as (c & Hc & _).
    rewrite (queue_deliver frame st st' p c Hc).
    - by rewrite (Hspare u p Hp).
    - rewrite Hheap, decide_True, Hc; [done|]. apply elem_of_map_ptrs. by exists u. }
  exists st'. split; [done|]. split; [exact Hq|]. split; [apply Hq|].
  split; [|split; [done|split; [|done]]].
  - rewrite count_true; [by rewrite length_map_to_list|].
    intros [u p] Hin%elem_of_map_to_list. simpl.
    apply bool_decide_eq_true. by apply (Hq u).
  - rewrite Hlog, drop_lines_none; [by rewrite app_nil_r|].
    intros p [u Hu]%elem_of_map_ptrs. by apply (Hspare u).
Qed.

Lemma presence_reaches_every_session_witness :
  let st := Scenario.three_online in
  let in_ := Scenario.envelope "presence" "" "" in
  let frame := presence_payload "alice" true in
  registry_ok st
  ∧ Type_ in_ = "presence"
  ∧ (∀ u p, lookup_session u st = Some p → queue_full st p = false)
  ∧ size (clients_m st) = 3
  ∧ ∃ st', dispatch Scenario.calm "alice" 0 in_ st = Done st'
      ∧ queue st' 0 = [frame] ∧ queue st' 1 = [frame] ∧ queue st' 2 = [frame].
Proof.
  intros st in_ frame.
  assert (Hok : registry_ok st) by apply after_registry_ok.
  assert (Hspare : ∀ u p, lookup_session u st = Some p → queue_full st p = false).
  { apply spare_capacity_from_count. vm_compute. reflexivity. }
  split; [exact Hok|]. split; [reflexivity|]. split; [exact Hspare|].
  split; [vm_compute; reflexivity|].
  destruct (presence_reaches_every_session Scenario.calm "alice" 0 in_ st
              Hok eq_refl Hspare) as (Hd & st' & Hrun & Hq & _).
  exists st'. rewrite Hd. split; [exact Hrun|].
  assert (Ha : lookup_session "alice" st = Some 0) by (vm_compute; reflexivity).
  assert (Hb : lookup_session "bob" st = Some 1) by (vm_compute; reflexivity).
  assert (Hc : lookup_session "carol" st = Some 2) by (vm_compute; reflexivity).
  rewrite (Hq _ _ Ha), (Hq _ _ Hb), (Hq _ _ Hc).
  repeat split; vm_compute; reflexivity.
Defined.

(** C10. A typing envelope is broadcast without any membership check: the
    typing case of the dispatch goes straight to broadcastToChat. So for a
    sender who is not a participant of an existing room, every registered
    participant of that room whose queue is not full still gets the typing
    frame, carrying the sender's userID, at the tail of its queue. Nothing is
    persisted. *)
Theorem typing_from_non_member_is_broadcast e userID client in_ chat st :
  registry_ok st →
  Type_ in_ = "typing" →
  FindOne e (ChatID in_) st = Some chat →
  userID ∉ Participants chat →
  let frame := typing_payload userID (ChatID in_) in
  dispatch e userID client in_ st = broadcastToChat e (ChatID in_) frame st
  ∧ ∃ st', dispatch e userID client in_ st = Done st'
    ∧ (∀ u p, u ∈ Participants chat → lookup_session u st = Some p →
         queue_full st p = false → queue st' p = queue st p ++ [frame])
    ∧ MessagesCollection st' = MessagesCollection st.
Proof.
  intros Hok Htype Hfind _ frame.
  rewrite (dispatch_typing e userID client in_ st Htype). split; [done|].
  destruct (broadcastToChat_found e frame st Hok (ChatID in_) chat Hfind)
    as (st' & Hrun & _ & _ & Hmsg & _ & Hheap & _).
  exists st'. split; [done|]. split; [|done].
  intros u p Hu Hp Hnf. destruct (Hok u p Hp) as (c & Hc & _).
  rewrite (queue_deliver frame st st' p c Hc); [by rewrite Hnf|].
  rewrite Hheap, decide_True, Hc; [done|].
  apply elem_of_map_ptrs. exists u. apply resolve_targets_lookup. done.
Qed.

Lemma typing_from_non_member_is_broadcast_witness :
  let st := Scenario.three_online in
  let in_ := Scenario.envelope "typing" "c1" "" in
  let frame := typing_payload "carol" "c1" in
  registry_ok st
  ∧ Type_ in_ = "typing"
  ∧ FindOne Scenario.calm (ChatID in_) st = Some Scenario.room_c1
  ∧ ("carol" ∉ Participants Scenario.room_c1)
  ∧ ∃ st', dispatch Scenario.calm "carol" 2 in_ st = Done st'
      ∧ queue st' 0 = [frame] ∧ queue st' 1 = [frame].
Proof.
  intros st in_ frame.
  assert (Hok : registry_ok st) by apply after_registry_ok.
  assert (Hfind : FindOne Scenario.calm (ChatID in_) st = Some Scenario.room_c1)
    by (vm_compute; reflexivity).
  assert (Hnot : "carol" ∉ Participants Scenario.room_c1).
  { apply (bool_decide_unpack _). vm_compute. exact I. }
  split; [exact Hok|]. split; [reflexivity|]. split; [exact Hfind|].
  split; [exact Hnot|].
  destruct (typing_from_non_member_is_broadcast Scenario.calm "carol" 2 in_
              Scenario.room_c1 st Hok eq_refl Hfind Hnot)
    as (_ & st' & Hrun & Hq & _).
  exists st'. split; [exact Hrun|].
  assert (Hin_a : "alice" ∈ Participants Scenario.room_c1).
  { apply (bool_decide_unpack _). vm_compute. exact I. }
  assert (Hin_b : "bob" ∈ Participants Scenario.room_c1).
  { apply (bool_decide_unpack _). vm_compute. exact I. }
  split.
  - apply (Hq "alice" 0 Hin_a); vm_compute; reflexivity.
  - apply (Hq "bob" 1 Hin_b); vm_compute; reflexivity.
Defined.

(* ===================================================================== *)
(*  Ingest: membership, validation, persistence                           *)
(* ===================================================================== *)

Lemma count_false {A} (f : A → bool) (l : list A) :
  (∀ x, x ∈ l → f x = false) → count f l = 0.
Proof.
  unfold count. induction l as [|x l IH]; intros H; [done|]. simpl.
  rewrite (H x) by (by left). apply IH. intros y Hy. apply H. by right.
Qed.

Lemma persistMessage_empty e chatID sender mediaType st :
  persistMessage e chatID sender "" "" mediaType st = (inr ErrEmptyContentAndMedia, st).
Proof. reflexivity. Qed.

Lemma not_both_empty in_ :
  Content in_ ≠ "" ∨ MediaURL in_ ≠ "" →
  bool_decide (Content in_ = "") && bool_decide (MediaURL in_ = "") = false.
Proof.
  intros [Hne|Hne]; rewrite (bool_decide_eq_false_2 _ Hne);
    [done | apply andb_false_r].
Qed.

Lemma persistMessage_insert_fails e in_ sender st :
  Content in_ ≠ "" ∨ MediaURL in_ ≠ "" →
  InsertOne_fails e = true →
  persistMessage e (ChatID in_) sender (Content in_) (MediaURL in_) (MediaType in_) st
  = (inr ErrInsertOne, st).
Proof.
  intros Hne Hfail. unfold persistMessage.
  rewrite (not_both_empty _ Hne). unfold InsertOne. by rewrite Hfail.
Qed.

Lemma persistMessage_inserted e in_ sender st :
  Content in_ ≠ "" ∨ MediaURL in_ ≠ "" →
  InsertOne_fails e = false →
  persistMessage e (ChatID in_) sender (Content in_) (MediaURL in_) (MediaType in_) st
  = (inl (stored_message e sender in_ (next_oid st)),
     UpdateOne e (ChatID in_) (now_updated e)
       (with_message (stored_message e sender in_ (next_oid st)) st)).
Proof.
  intros Hne Hfail. unfold persistMessage.
  rewrite (not_both_empty _ Hne). unfold InsertOne. by rewrite Hfail.
Qed.

(** C5. An envelope whose content and media reference are both empty is
    rejected: persistMessage (and persistMediaMessage with an empty URL)
    returns the error "empty content and media" and leaves the store as it
    was, whatever the store would have answered; the ingest of such an
    envelope returns having written one log line and nothing else, so no
    record is persisted and no frame is enqueued. *)
Theorem empty_message_is_rejected e client c in_ st :
  heap st !! client = Some c →
  Content in_ = "" →
  MediaURL in_ = "" →
  persistMessage e (ChatID in_) (client_UserID c) (Content in_) (MediaURL in_)
                 (MediaType in_) st = (inr ErrEmptyContentAndMedia, st)
  ∧ persistMediaMessage e (ChatID in_) (client_UserID c) (MediaURL in_)
                        (MediaType in_) st = (inr ErrEmptyContentAndMedia, st)
  ∧ ∃ st' l, handleIncomingMessage e client in_ st = Done st'
      ∧ st' = log l st
      ∧ MessagesCollection st' = MessagesCollection st
      ∧ next_oid st' = next_oid st
      ∧ heap st' = heap st.
Proof.
  intros Hc Hcontent Hurl. unfold persistMediaMessage.
  rewrite Hcontent, Hurl, persistMessage_empty. split; [done|]. split; [done|].
  unfold handleIncomingMessage. rewrite Hc, Hcontent, Hurl.
  destruct (CountDocuments e (ChatID in_) (client_UserID c) st) as [[|n]|].
  - by eexists _, _.
  - rewrite persistMessage_empty. by eexists _, _.
  - by eexists _, _.
Qed.

Lemma empty_message_is_rejected_witness :
  let st := Scenario.three_online in
  let in_ := Scenario.envelope "message" "c1" "" in
  let c := set_conn (SetReadDeadline (10 + pongWait)) (new_Client "alice") in
  heap st !! 0 = Some c
  ∧ Content in_ = ""
  ∧ MediaURL in_ = ""
  ∧ ∃ st', handleIncomingMessage Scenario.calm 0 in_ st = Done st'
      ∧ MessagesCollection st' = [].
Proof.
  intros st in_ c.
  assert (Hc : heap st !! 0 = Some c) by (vm_compute; reflexivity).
  split; [exact Hc|]. split; [reflexivity|]. split; [reflexivity|].
  destruct (empty_message_is_rejected Scenario.calm 0 c in_ st Hc eq_refl eq_refl)
    as (_ & _ & st' & l & Hrun & _ & Hmsg & _).
  exists st'. split; [exact Hrun|]. rewrite Hmsg. vm_compute. reflexivity.
Defined.

(** C6. Authorization rejection. When no document of the chat collection
    with the envelope's chatid lists the sender among its participants, the
    ingest returns after writing one log line (unauthorized access, or a
    failed membership check when the count itself fails): no record is
    persisted, the heap is unchanged, so no frame is enqueued to anybody, the
    sender included, and nothing is reported back. *)
Theorem unauthorized_sender_is_dropped e client c in_ st :
  heap st !! client = Some c →
  (∀ chat, chat ∈ MereCollection st → chat_ChatID chat = ChatID in_ →
           client_UserID c ∉ Participants chat) →
  ∃ st', handleIncomingMessage e client in_ st = Done st'
    ∧ MessagesCollection st' = MessagesCollection st
    ∧ next_oid st' = next_oid st
    ∧ MereCollection st' = MereCollection st
    ∧ heap st' = heap st
    ∧ (∀ p, queue st' p = queue st p)
    ∧ clients_m st' = clients_m st
    ∧ (logs st' = logs st ++ [LogUnauthorized (client_UserID c) (ChatID in_)]
       ∨ logs st' = logs st ++ [LogMembershipCheckFailed (client_UserID c)]).
Proof.
  intros Hc Hnot. unfold handleIncomingMessage. rewrite Hc.
  unfold CountDocuments. destruct (CountDocuments_fails e).
  - eexists. split; [done|]. repeat split; by auto.
  - assert (Hzero : length (List.filter (has_member (ChatID in_) (client_UserID c))
                              (MereCollection st)) = 0).
    { apply (count_false (has_member (ChatID in_) (client_UserID c))).
      intros chat Hin. unfold has_member, has_chatid.
      destruct (bool_decide (chat_ChatID chat = ChatID in_)) eqn:Hid; [|done].
      apply bool_decide_eq_true in Hid. simpl.
      apply bool_decide_eq_false. by apply Hnot. }
    rewrite Hzero. eexists. split; [done|]. repeat split; by auto.
Qed.

Lemma unauthorized_sender_is_dropped_witness :
  let st := Scenario.three_online in
  let in_ := Scenario.envelope "message" "c1" "hello" in
  let c := set_conn (SetReadDeadline (30 + pongWait)) (new_Client "carol") in
  heap st !! 2 = Some c
  ∧ (∀ chat, chat ∈ MereCollection st → chat_ChatID chat = ChatID in_ →
             client_UserID c ∉ Participants chat)
  ∧ ∃ st', handleIncomingMessage Scenario.calm 2 in_ st = Done st'
      ∧ MessagesCollection st' = []
      ∧ queue st' 0 = [] ∧ queue st' 1 = [] ∧ queue st' 2 = [].
Proof.
  intros st in_ c.
  assert (Hc : heap st !! 2 = Some c) by (vm_compute; reflexivity).
  assert (Hnot : ∀ chat, chat ∈ MereCollection st → chat_ChatID chat = ChatID in_ →
                         client_UserID c ∉ Participants chat).
  { intros chat Hin _.
    assert (Hst : MereCollection st = [Scenario.room_c1]) by (vm_compute; reflexivity).
    rewrite Hst in Hin. apply list_elem_of_singleton in Hin. subst chat.
    apply (bool_decide_unpack _). vm_compute. exact I. }
  split; [exact Hc|]. split; [exact Hnot|].
  destruct (unauthorized_sender_is_dropped Scenario.calm 2 c in_ st Hc Hnot)
    as (st' & Hrun & Hmsg & _ & _ & _ & Hq & _).
  exists st'. split; [exact Hrun|]. rewrite Hmsg, !Hq.
  repeat split; vm_compute; reflexivity.
Defined.

(** C7. For an envelope of a member that carries content or media: when the
    insert of the message fails, persistMessage returns the store's error with
    the store untouched and the ingest stops after logging it, so nothing is
    broadcast; when the insert succeeds, persistMessage returns the stored
    message whether or not the update of the room's updatedAt fails, and the
    ingest goes on to broadcast the frame built from it. With the update
    failing, the room document is left as it was and every registered
    participant of the room whose queue is not full receives that frame. *)
Theorem insert_failure_aborts_update_failure_does_not e client c in_ st n :
  heap st !! client = Some c →
  CountDocuments e (ChatID in_) (client_UserID c) st = Some (S n) →
  Content in_ ≠ "" ∨ MediaURL in_ ≠ "" →
  let sender := client_UserID c in
  let msg := stored_message e sender in_ (next_oid st) in
  let frame := message_payload msg in_ in
  let persisted :=
    persistMessage e (ChatID in_) sender (Content in_) (MediaURL in_) (MediaType in_) st in
  (InsertOne_fails e = true →
     persisted = (inr ErrInsertOne, st)
     ∧ handleIncomingMessage e client in_ st = Done (log (LogPersistError sender) st))
  ∧ (InsertOne_fails e = false →
     persisted.1 = inl msg
     ∧ MessagesCollection persisted.2 = MessagesCollection st ++ [msg]
     ∧ handleIncomingMessage e client in_ st
       = broadcastToChat e (ChatID in_) frame persisted.2)
  ∧ (InsertOne_fails e = false → UpdateOne_fails e = true →
     persisted = (inl msg, with_message msg st)
     ∧ (registry_ok st → ∀ chat, FindOne e (ChatID in_) st = Some chat →
        ∃ st', handleIncomingMessage e client in_ st = Done st'
          ∧ MessagesCollection st' = MessagesCollection st ++ [msg]
          ∧ MereCollection st' = MereCollection st
          ∧ ∀ u p, u ∈ Participants chat → lookup_session u st = Some p →
              queue_full st p = false → queue st' p = queue st p ++ [frame])).
Proof.
  intros Hc Hcount Hne sender msg frame persisted.
  assert (Hhandle : handleIncomingMessage e client in_ st
            = match persisted with
              | (inr _, st1) => Done (log (LogPersistError sender) st1)
              | (inl m, st1) => broadcastToChat e (ChatID in_) (message_payload m in_) st1
              end).
  { unfold handleIncomingMessage. by rewrite Hc, Hcount. }
  split; [|split].
  - intros Hfail.
    assert (Hp : persisted = (inr ErrInsertOne, st))
      by (by apply persistMessage_insert_fails).
    split; [exact Hp|]. by rewrite Hhandle, Hp.
  - intros Hins.
    assert (Hp := persistMessage_inserted e in_ sender st Hne Hins).
    fold persisted msg in Hp. rewrite Hhandle, Hp. simpl.
    split; [done|]. split; [|done].
    by destruct (UpdateOne_frame e (ChatID in_) (now_updated e) (with_message msg st))
      as (_ & _ & -> & _).
  - intros Hins Hupd.
    assert (Hp := persistMessage_inserted e in_ sender st Hne Hins).
    fold persisted msg in Hp. unfold UpdateOne in Hp. rewrite Hupd in Hp.
    split; [exact Hp|]. intros Hok chat Hfind.
    rewrite Hhandle, Hp.
    assert (Hok1 : registry_ok (with_message msg st)) by exact Hok.
    destruct (broadcastToChat_found e frame (with_message msg st) Hok1
                (ChatID in_) chat Hfind)
      as (st' & Hrun & _ & Hmere & Hmsg & _ & Hheap & _).
    exists st'. split; [exact Hrun|]. split; [exact Hmsg|]. split; [exact Hmere|].
    intros u p Hu Hp' Hnf. destruct (Hok u p Hp') as (c' & Hc' & _).
    rewrite (queue_deliver frame st st' p c' Hc'); [by rewrite Hnf|].
    rewrite Hheap. simpl. rewrite decide_True, Hc'; [done|].
    apply elem_of_map_ptrs. exists u. apply resolve_targets_lookup. done.
Qed.

Lemma insert_failure_aborts_update_failure_does_not_witness :
  let st := Scenario.three_online in
  let in_ := Scenario.envelope "message" "c1" "hello" in
  let c := set_conn (SetReadDeadline (10 + pongWait)) (new_Client "alice") in
  let msg := stored_message Scenario.update_down "alice" in_ 0 in
  heap st !! 0 = Some c
  ∧ CountDocuments Scenario.update_down (ChatID in_) (client_UserID c) st = Some 1
  ∧ (Content in_ ≠ "" ∨ MediaURL in_ ≠ "")
  ∧ handleIncomingMessage Scenario.insert_down 0 in_ st
    = Done (log (LogPersistError "alice") st)
  ∧ ∃ st', handleIncomingMessage Scenario.update_down 0 in_ st = Done st'
      ∧ MessagesCollection st' = [msg]
      ∧ MereCollection st' = [Scenario.room_c1]
      ∧ queue st' 1 = [message_payload msg in_].
Proof.
  intros st in_ c msg.
  assert (Hc : heap st !! 0 = Some c) by (vm_compute; reflexivity).
  assert (Hcount : ∀ e, CountDocuments_fails e = false →
            CountDocuments e (ChatID in_) (client_UserID c) st = Some 1).
  { intros e He. unfold CountDocuments. rewrite He. vm_compute. reflexivity. }
  assert (Hne : Content in_ ≠ "" ∨ MediaURL in_ ≠ "") by (left; discriminate).
  split; [exact Hc|]. split; [by apply Hcount|]. split; [exact Hne|].
  split.
  - destruct (insert_failure_aborts_update_failure_does_not Scenario.insert_down
                0 c in_ st 0 Hc (Hcount Scenario.insert_down eq_refl) Hne)
      as (Hfail & _).
    exact (proj2 (Hfail eq_refl)).
  - destruct (insert_failure_aborts_update_failure_does_not Scenario.update_down
                0 c in_ st 0 Hc (Hcount Scenario.update_down eq_refl) Hne)
      as (_ & _ & Hupd).
    destruct (Hupd eq_refl eq_refl) as (_ & Hbroadcast).
    destruct (Hbroadcast (after_registry_ok _) Scenario.room_c1)
      as (st' & Hrun & Hmsg & Hmere & Hq); [vm_compute; reflexivity|].
    exists st'. split; [exact Hrun|]. split; [exact Hmsg|]. split; [exact Hmere|].
    apply (Hq "bob" 1); [|vm_compute; reflexivity..].
    apply (bool_decide_unpack _). vm_compute. exact I.
Defined.

(* ===================================================================== *)
(*  The reader loop and unknown envelope types                            *)
(* ===================================================================== *)

(** C8. An envelope whose type is none of "message", "typing", "presence"
    only produces a log line: the dispatch returns with the state otherwise
    unchanged, so no frame is sent and nothing is stored; the reader loop goes
    on with the inputs that follow, and the activation is still in its reader
    loop after the step. *)
Theorem unknown_envelope_type_is_ignored e userID client in_ st rest :
  Type_ in_ ≠ "message" →
  Type_ in_ ≠ "typing" →
  Type_ in_ ≠ "presence" →
  let st' := log (LogUnknownType userID (Type_ in_)) st in
  dispatch e userID client in_ st = Done st'
  ∧ heap st' = heap st
  ∧ clients_m st' = clients_m st
  ∧ MessagesCollection st' = MessagesCollection st
  ∧ reader_loop userID client (ReadOk in_ e :: rest) st
    = reader_loop userID client rest st'
  ∧ reader_loop userID client [ReadOk in_ e] st = Done (Reading, st')
  ∧ (in_reader_loop st client = Some userID →
     step (EvReceive client in_ e) st = Done st'
     ∧ in_reader_loop st' client = Some userID).
Proof.
  intros H1 H2 H3 st'.
  assert (Hd : dispatch e userID client in_ st = Done st').
  { unfold dispatch.
    apply String.eqb_neq in H1, H2, H3. by rewrite H1, H2, H3. }
  split; [exact Hd|]. split; [done|]. split; [done|]. split; [done|].
  split; [simpl; by rewrite Hd|]. split; [simpl; by rewrite Hd|].
  intros Hloop. split; [|exact Hloop]. simpl. by rewrite Hloop, Hd.
Qed.

Lemma unknown_envelope_type_is_ignored_witness :
  let st := Scenario.three_online in
  let in_ := Scenario.envelope "ping" "c1" "" in
  Type_ in_ ≠ "message" ∧ Type_ in_ ≠ "typing" ∧ Type_ in_ ≠ "presence"
  ∧ reader_loop "alice" 0 [ReadOk in_ Scenario.calm; ReadErr] st
    = Done (Broke, log (LogReadError "alice") (log (LogUnknownType "alice" "ping") st)).
Proof.
  intros st in_.
  assert (H1 : Type_ in_ ≠ "message") by discriminate.
  assert (H2 : Type_ in_ ≠ "typing") by discriminate.
  assert (H3 : Type_ in_ ≠ "presence") by discriminate.
  split; [exact H1|]. split; [exact H2|]. split; [exact H3|].
  destruct (unknown_envelope_type_is_ignored Scenario.calm "alice" 0 in_ st
              [ReadErr] H1 H2 H3) as (_ & _ & _ & _ & Hloop & _).
  rewrite Hloop. reflexivity.
Defined.

(* ===================================================================== *)
(*  Timeouts                                                              *)
(* ===================================================================== *)

(** C9. The liveness deadline pongWait is 60 s, the heartbeat interval
    pingPeriod is 30 s and the write timeout is 10 s; the deadline is twice
    the interval, hence strictly larger, with a margin of one whole interval.
    The read deadline is set pongWait after the time of the pong; the writer
    sets a write deadline writeTimeout after the time of each write; each
    heartbeat sets a write deadline, and passes a ping deadline, that are
    writeTimeout after the times read. *)
Theorem timeout_relationships :
  (pongWait = 60 * second ∧ pingPeriod = 30 * second ∧ writeTimeout = 10 * second)%Z
  ∧ (pongWait = 2 * pingPeriod)%Z
  ∧ (pingPeriod < pongWait)%Z
  ∧ (pingPeriod ≤ pongWait - pingPeriod)%Z
  ∧ (writeTimeout < pingPeriod)%Z
  ∧ (∀ now client st c, heap st !! client = Some c →
       (readDeadline ∘ conn) <$> heap (refresh_read_deadline now client st) !! client
       = Some (Some (now + pongWait)%Z))
  ∧ (∀ now write_ok client st c msg rest,
       heap st !! client = Some c → writer_returned c = false →
       buf (Send c) = msg :: rest →
       (writeDeadline ∘ conn) <$> heap (writer_step now write_ok client st) !! client
       = Some (Some (now + writeTimeout)%Z))
  ∧ (∀ t1 t2 ping_ok client st c,
       heap st !! client = Some c → heartbeat_returned c = false →
       done_closed c = false →
       ∃ c', heap (heartbeat_tick t1 t2 ping_ok client st) !! client = Some c'
         ∧ writeDeadline (conn c') = Some (t1 + writeTimeout)%Z
         ∧ (ping_ok = true → conn_closed (conn c) = false →
            pings (conn c') = pings (conn c) ++ [(t2 + writeTimeout)%Z])).
Proof.
  split; [done|]. split; [done|]. split; [done|]. split; [done|]. split; [done|].
  split; [|split].
  - intros now client st c Hc. unfold refresh_read_deadline.
    rewrite update_cell_lookup, decide_True, Hc; done.
  - intros now write_ok client st c msg rest Hc Hw Hbuf. unfold writer_step.
    rewrite Hc, Hw, Hbuf. pose proof (lookup_lt_Some _ _ _ Hc) as Hlt.
    destruct (write_ok && _); simpl; by rewrite list_lookup_insert_eq.
  - intros t1 t2 ping_ok client st c Hc Hh Hdone. unfold heartbeat_tick.
    rewrite Hc, Hh, Hdone. pose proof (lookup_lt_Some _ _ _ Hc) as Hlt.
    eexists. simpl. rewrite list_lookup_insert_eq by done.
    split; [done|]. split.
    + by destruct (ping_ok && _).
    + intros -> Hopen. simpl. by rewrite Hopen.
Qed.

(* ===================================================================== *)
(*  Further properties of the hub                                         *)
(* ===================================================================== *)

Lemma touch_first_membership cid t l :
  (λ c, (chat_ChatID c, Participants c)) <$> touch_first cid t l
  = (λ c, (chat_ChatID c, Participants c)) <$> l.
Proof.
  induction l as [|c l IH]; [done|]. simpl.
  destruct (has_chatid cid c); simpl; [done|]. f_equal. exact IH.
Qed.

Lemma persistMessage_store e chatID sender content mediaURL mediaType st :
  let st' := (persistMessage e chatID sender content mediaURL mediaType st).2 in
  membership st' = membership st
  ∧ MessagesCollection st `prefix_of` MessagesCollection st'.
Proof.
  unfold persistMessage, InsertOne, membership.
  destruct (_ && _); [done|]. destruct (InsertOne_fails e); [done|]. simpl.
  unfold UpdateOne. destruct (UpdateOne_fails e); simpl.
  - split; [done | by apply prefix_app_r].
  - split; [apply touch_first_membership | by apply prefix_app_r].
Qed.

Lemma untouched_or_pushed_refl st st' :
  heap st' = heap st → untouched_or_pushed st st'.
Proof. intros Hh p. left. by rewrite Hh. Qed.

Lemma deliver_untouched_or_pushed payload (l : list ptr) st st' :
  (∀ p, p ∈ l → ∃ u, clients_m st !! u = Some p) →
  (∀ p, heap st' !! p =
        if decide (p ∈ l) then deliver payload <$> heap st !! p else heap st !! p) →
  untouched_or_pushed st st'.
Proof.
  intros Hreg Hheap p. rewrite Hheap.
  destruct (decide (p ∈ l)) as [Hin|Hnin]; [|by left].
  destruct (heap st !! p) as [c|] eqn:Hc; [|by left]. simpl. unfold deliver.
  destruct (is_full (Send c)) eqn:Hfull; [by left|].
  right. destruct (Hreg p Hin) as [u Hu]. by exists c, payload, u.
Qed.

Lemma broadcastToChat_effect e cid payload st :
  registry_ok st →
  ∃ st', broadcastToChat e cid payload st = Done st'
    ∧ registry_ok st'
    ∧ clients_m st' = clients_m st
    ∧ MereCollection st' = MereCollection st
    ∧ MessagesCollection st' = MessagesCollection st
    ∧ untouched_or_pushed st st'.
Proof.
  intros Hok. destruct (broadcastToChat_ok e cid payload st Hok) as (st' & Hrun & Hok').
  exists st'. split; [done|]. split; [done|].
  destruct (FindOne e cid st) as [chat|] eqn:Hfind.
  - destruct (broadcastToChat_found e payload st Hok cid chat Hfind)
      as (st'' & Hrun'' & Hm & Hmere & Hmsg & _ & Hheap & _).
    rewrite Hrun in Hrun''. inversion Hrun''; subst st''.
    repeat split; try done.
    eapply deliver_untouched_or_pushed; [|exact Hheap].
    intros p [u Hu]%elem_of_map_ptrs. exists u.
    by apply resolve_targets_lookup in Hu as [_ ?].
  - unfold broadcastToChat in Hrun. rewrite Hfind in Hrun.
    inversion Hrun; subst st'. repeat split; try done.
    by apply untouched_or_pushed_refl.
Qed.

Lemma broadcastGlobal_effect payload st :
  registry_ok st →
  ∃ st', broadcastGlobal payload st = Done st'
    ∧ registry_ok st'
    ∧ clients_m st' = clients_m st
    ∧ MereCollection st' = MereCollection st
    ∧ MessagesCollection st' = MessagesCollection st
    ∧ untouched_or_pushed st st'.
Proof.
  intros Hok.
  destruct (broadcastGlobal_preserves payload st Hok) as (st' & Hrun & Hok').
  destruct (broadcastGlobal_ok payload st Hok)
    as (st'' & Hrun'' & Hm & Hmere & Hmsg & _ & Hheap & _).
  rewrite Hrun in Hrun''. inversion Hrun''; subst st''.
  exists st'. repeat split; try done.
  eapply deliver_untouched_or_pushed; [|exact Hheap].
  intros p Hp. by apply elem_of_map_ptrs.
Qed.

Lemma dispatch_effect e userID client in_ st :
  registry_ok st → is_Some (heap st !! client) →
  ∃ st', dispatch e userID client in_ st = Done st'
    ∧ registry_ok st'
    ∧ clients_m st' = clients_m st
    ∧ membership st' = membership st
    ∧ MessagesCollection st `prefix_of` MessagesCollection st'
    ∧ untouched_or_pushed st st'.
Proof.
  intros Hok [c Hc]. unfold dispatch.
  destruct (String.eqb (Type_ in_) "message").
  { unfold handleIncomingMessage. rewrite Hc.
    destruct (CountDocuments e (ChatID in_) (client_UserID c) st) as [[|n]|].
    - eexists. split; [done|]. repeat split; try done.
      by apply untouched_or_pushed_refl.
    - pose proof (persistMessage_frame e (ChatID in_) (client_UserID c) (Content in_)
                    (MediaURL in_) (MediaType in_) st) as Hf.
      pose proof (persistMessage_store e (ChatID in_) (client_UserID c) (Content in_)
                    (MediaURL in_) (MediaType in_) st) as Hs.
      destruct (persistMessage e (ChatID in_) (client_UserID c) (Content in_)
                  (MediaURL in_) (MediaType in_) st) as [[msg|err] st1].
      + simpl in Hf, Hs. destruct Hf as (Hm1 & Hh1 & _). destruct Hs as (Hmem & Hpre).
        assert (Hok1 : registry_ok st1) by (by apply (registry_ok_frame st)).
        destruct (broadcastToChat_effect e (ChatID in_) (message_payload msg in_) st1 Hok1)
          as (st' & Hrun & Hok' & Hm & Hmere & Hmsg & Hcells).
        exists st'. split; [done|]. split; [done|]. split; [congruence|].
        split; [unfold membership in *; congruence|]. split; [by rewrite Hmsg|].
        intros p. destruct (Hcells p) as [Hsame|(c0 & f & u & H1 & H2 & H3 & H4)].
        * left. congruence.
        * right. exists c0, f, u. rewrite <- Hh1, <- Hm1. done.
      + simpl in Hf, Hs. destruct Hf as (Hm1 & Hh1 & _). destruct Hs as (Hmem & Hpre).
        eexists. split; [done|]. split.
        { apply registry_ok_log. by apply (registry_ok_frame st). }
        repeat split; try done. by apply untouched_or_pushed_refl.
    - eexists. split; [done|]. repeat split; try done.
      by apply untouched_or_pushed_refl. }
  destruct (String.eqb (Type_ in_) "typing").
  { destruct (broadcastToChat_effect e (ChatID in_)
                (typing_payload userID (ChatID in_)) st Hok)
      as (st' & Hrun & Hok' & Hm & Hmere & Hmsg & Hcells).
    exists st'. unfold membership. rewrite Hmere, Hmsg. done. }
  destruct (String.eqb (Type_ in_) "presence").
  { destruct (broadcastGlobal_effect (presence_payload userID (Online in_)) st Hok)
      as (st' & Hrun & Hok' & Hm & Hmere & Hmsg & Hcells).
    exists st'. unfold membership. rewrite Hmere, Hmsg. done. }
  eexists. split; [done|]. repeat split; try done.
  by apply untouched_or_pushed_refl.
Qed.

Lemma same_queue_refl c : same_queue c c.
Proof. by unfold same_queue. Qed.

Lemma same_queue_trans c1 c2 c3 :
  same_queue c1 c2 → same_queue c2 c3 → same_queue c1 c3.
Proof. unfold same_queue. intros (?&?&?) (?&?&?). repeat split; congruence. Qed.

Lemma update_cell_same_queue p f st q c :
  (∀ d, same_queue d (f d)) → heap st !! q = Some c →
  ∃ c', heap (update_cell p f st) !! q = Some c' ∧ same_queue c c'.
Proof.
  intros Hf Hc. rewrite update_cell_lookup, Hc.
  case_decide; simpl; eexists; (split; [done|]); [apply Hf | apply same_queue_refl].
Qed.

Lemma unregister_same_queue userID st st' q c :
  unregister userID st = Done st' → heap st !! q = Some c →
  ∃ c', heap st' !! q = Some c' ∧ same_queue c c'.
Proof.
  unfold unregister. intros Hrun Hc.
  destruct (clients_m st !! userID) as [r|].
  2: { inversion Hrun; subst. exists c. split; [done | apply same_queue_refl]. }
  simpl in Hrun. destruct (heap st !! r) as [cl|] eqn:Hr; [|done].
  unfold close_chan in Hrun. destruct (closed (Send cl)); [done|]. simpl in Hrun.
  inversion Hrun; subst st'. clear Hrun.
  rewrite update_cell_lookup. simpl. rewrite Hc.
  case_decide as Hrq; simpl; eexists; (split; [done|]); [|apply same_queue_refl].
  subst r. assert (cl = c) by congruence. subst cl. by unfold same_queue.
Qed.

Lemma cleanup_same_queue userID self st st' q c :
  cleanup userID self st = Done st' → heap st !! q = Some c →
  ∃ c', heap st' !! q = Some c' ∧ same_queue c c'.
Proof.
  unfold cleanup. intros Hrun Hc.
  destruct (update_cell_same_queue self close_done st q c) as (c1 & Hc1 & Hq1);
    [by unfold same_queue | done |].
  destruct (unregister userID (update_cell self close_done st)) as [st1|] eqn:Hun;
    [|done].
  destruct (unregister_same_queue userID _ st1 q c1 Hun Hc1) as (c2 & Hc2 & Hq2).
  simpl in Hrun. inversion Hrun; subst st'. clear Hrun.
  destruct (update_cell_same_queue self (set_conn conn_Close) st1 q c2)
    as (c3 & Hc3 & Hq3); [by unfold same_queue | done |].
  exists c3. split; [exact Hc3|].
  eapply same_queue_trans; [|exact Hq3]. by eapply same_queue_trans.
Qed.

Lemma same_queue_change ev p c c' : same_queue c c' → queue_change ev p c c'.
Proof. intros (?&?&?). by apply qc_same. Qed.

Lemma is_full_false_lt ch : is_full ch = false → length (buf ch) < cap ch.
Proof.
  unfold is_full. intros H. apply bool_decide_eq_false in H. lia.
Qed.

Lemma writer_step_queue_change now ok client st p c :
  heap st !! p = Some c →
  ∃ c', heap (writer_step now ok client st) !! p = Some c'
    ∧ cap (Send c') = cap (Send c)
    ∧ queue_change (EvWriter client now ok) p c c'.
Proof.
  intros Hc. unfold writer_step.
  destruct (heap st !! client) as [cl|] eqn:Hcl.
  2: { exists c. split; [done|]. split; [done|]. by apply qc_same. }
  destruct (writer_returned cl).
  { exists c. split; [done|]. split; [done|]. by apply qc_same. }
  pose proof (lookup_lt_Some _ _ _ Hcl) as Hlt.
  destruct (decide (client = p)) as [->|Hne].
  - assert (cl = c) by congruence. subst cl.
    destruct (buf (Send c)) as [|m rest] eqn:Hbuf.
    + destruct (closed (Send c)).
      * simpl. rewrite list_lookup_insert_eq by done. eexists. split; [done|].
        split; [done|]. by apply qc_same.
      * exists c. split; [done|]. split; [done|]. by apply qc_same.
    + destruct ok; simpl.
      * destruct (conn_closed (conn c)) eqn:Hcc; simpl.
        -- rewrite list_lookup_insert_eq by done. eexists. split; [done|].
           split; [done|]. eapply (qc_lost _ _ _ _ m now true); simpl; auto.
        -- rewrite list_lookup_insert_eq by done. eexists. split; [done|].
           split; [done|]. eapply (qc_wrote _ _ _ _ m); simpl; auto.
      * rewrite list_lookup_insert_eq by done. eexists. split; [done|].
        split; [done|]. eapply (qc_lost _ _ _ _ m now false); simpl; auto.
  - exists c. split; [|split; [done | by apply qc_same]].
    destruct (buf (Send cl)) as [|m rest].
    + destruct (closed (Send cl)); [|done]. simpl. by rewrite list_lookup_insert_ne.
    + destruct (ok && _); simpl; by rewrite list_lookup_insert_ne.
Qed.

Lemma heartbeat_tick_same_queue t1 t2 ok client st p c :
  heap st !! p = Some c →
  ∃ c', heap (heartbeat_tick t1 t2 ok client st) !! p = Some c' ∧ same_queue c c'.
Proof.
  intros Hc. unfold heartbeat_tick.
  destruct (heap st !! client) as [cl|] eqn:Hcl.
  2: { exists c. split; [done | apply same_queue_refl]. }
  pose proof (lookup_lt_Some _ _ _ Hcl) as Hlt.
  destruct (heartbeat_returned cl).
  { exists c. split; [done | apply same_queue_refl]. }
  destruct (decide (client = p)) as [->|Hne].
  - assert (cl = c) by congruence. subst cl.
    destruct (done_closed c); simpl.
    + rewrite list_lookup_insert_eq by done. eexists. split; [done|].
      by unfold same_queue.
    + rewrite list_lookup_insert_eq by done. eexists. split; [done|].
      by destruct (ok && _).
  - exists c. split; [|apply same_queue_refl].
    destruct (done_closed cl); simpl; by rewrite list_lookup_insert_ne.
Qed.

Lemma step_queue_change ev st st' p c :
  registry_ok st → step ev st = Done st' → heap st !! p = Some c →
  ∃ c', heap st' !! p = Some c' ∧ cap (Send c') = cap (Send c)
        ∧ queue_change ev p c c'.
Proof.
  intros Hok Hstep Hc.
  assert (Hsame : ∀ c', same_queue c c' →
            cap (Send c') = cap (Send c) ∧ queue_change ev p c c').
  { intros c' Hq. split; [by destruct Hq as (_ & ? & _) | by apply same_queue_change]. }
  destruct ev as [userID now|client in_ e|client|client now|client now ok|client t1 t2 ok];
    simpl in Hstep.
  - inversion Hstep; subst st'. clear Hstep.
    destruct (update_cell_same_queue (length (heap st))
                (set_conn (SetReadDeadline (now + pongWait)%Z))
                (register userID (length (heap st))
                   (set_heap (λ h, h ++ [new_Client userID]) (log (LogConnected userID) st)))
                p c) as (c' & Hc' & Hq).
    + intros d. by unfold same_queue.
    + simpl. rewrite lookup_app_l; [done | by eapply lookup_lt_Some].
    + exists c'. split; [exact Hc' | by apply Hsame].
  - destruct (in_reader_loop st client) as [userID|] eqn:Hloop.
    2: { inversion Hstep; subst. exists c. split; [done|].
         apply Hsame, same_queue_refl. }
    assert (Hcl : is_Some (heap st !! client)).
    { unfold in_reader_loop in Hloop. by destruct (heap st !! client). }
    destruct (dispatch_effect e userID client in_ st Hok Hcl)
      as (st'' & Hrun & _ & _ & _ & _ & Hcells).
    rewrite Hrun in Hstep. inversion Hstep; subst st''.
    destruct (Hcells p) as [Heq|(c0 & f & u & H1 & H2 & H3 & _)].
    + exists c. split; [congruence|]. apply Hsame, same_queue_refl.
    + assert (c0 = c) by congruence. subst c0.
      exists (push f c). split; [done|]. split; [done|].
      apply (qc_pushed _ _ _ _ f); [done | done | by apply is_full_false_lt].
  - destruct (in_reader_loop st client) as [userID|].
    2: { inversion Hstep; subst. exists c. split; [done|].
         apply Hsame, same_queue_refl. }
    destruct (cleanup_same_queue userID client _ st' p c Hstep Hc) as (c' & Hc' & Hq).
    exists c'. split; [exact Hc' | by apply Hsame].
  - destruct (in_reader_loop st client).
    2: { inversion Hstep; subst. exists c. split; [done|].
         apply Hsame, same_queue_refl. }
    inversion Hstep; subst st'.
    destruct (update_cell_same_queue client
                (set_conn (SetReadDeadline (now + pongWait)%Z)) st p c)
      as (c' & Hc' & Hq); [by unfold same_queue | done |].
    exists c'. split; [exact Hc' | by apply Hsame].
  - inversion Hstep; subst st'. by apply writer_step_queue_change.
  - inversion Hstep; subst st'.
    destruct (heartbeat_tick_same_queue t1 t2 ok client st p c Hc) as (c' & Hc' & Hq).
    exists c'. split; [exact Hc' | by apply Hsame].
Qed.

Lemma unregister_heap_none userID st st' p :
  unregister userID st = Done st' → heap st !! p = None → heap st' !! p = None.
Proof.
  unfold unregister. intros Hrun Hp.
  destruct (clients_m st !! userID) as [r|]; [|by inversion Hrun; subst].
  simpl in Hrun. destruct (heap st !! r) as [cl|] eqn:Hr; [|done].
  destruct (close_chan (Send cl)) as [ch|]; [|done]. simpl in Hrun.
  inversion Hrun; subst st'. rewrite update_cell_lookup. simpl. rewrite Hp.
  by case_decide.
Qed.

(* Only a new connection adds a cell, and the cell it adds has an empty
   queue of sendQueueSize slots and nothing written. *)
Lemma step_fresh_cell ev st st' p c' :
  registry_ok st → step ev st = Done st' →
  heap st !! p = None → heap st' !! p = Some c' →
  buf (Send c') = [] ∧ cap (Send c') = sendQueueSize ∧ written (conn c') = [].
Proof.
  intros Hok Hstep Hp Hc'.
  destruct ev as [userID now|client in_ e|client|client now|client now ok|client t1 t2 ok];
    simpl in Hstep.
  - inversion Hstep; subst st'. clear Hstep.
    unfold refresh_read_deadline in Hc'. rewrite update_cell_lookup in Hc'. simpl in Hc'.
    apply lookup_ge_None in Hp.
    destruct (decide (p = length (heap st))) as [->|Hne].
    + rewrite decide_True in Hc' by done.
      rewrite lookup_app_r, Nat.sub_diag in Hc' by lia. simpl in Hc'.
      by inversion Hc'; subst c'.
    + rewrite decide_False in Hc' by done.
      rewrite lookup_ge_None_2 in Hc'; [done|]. rewrite length_app. simpl. lia.
  - destruct (in_reader_loop st client) as [userID|] eqn:Hloop; [|congruence].
    assert (Hcl : is_Some (heap st !! client)).
    { unfold in_reader_loop in Hloop. by destruct (heap st !! client). }
    destruct (dispatch_effect e userID client in_ st Hok Hcl)
      as (st'' & Hrun & _ & _ & _ & _ & Hcells).
    rewrite Hrun in Hstep. inversion Hstep; subst st''.
    destruct (Hcells p) as [Heq|(c0 & f & u & H1 & _)]; congruence.
  - destruct (in_reader_loop st client) as [userID|]; [|congruence].
    unfold cleanup in Hstep.
    destruct (unregister userID _) as [st1|] eqn:Hun; [|done].
    simpl in Hstep. inversion Hstep; subst st'. clear Hstep.
    change (heap (update_cell client (set_conn conn_Close) st1) !! p = Some c') in Hc'.
    rewrite update_cell_lookup in Hc'.
    rewrite (unregister_heap_none userID _ st1 p Hun) in Hc'.
    + by case_decide.
    + rewrite update_cell_lookup. simpl. rewrite Hp. by case_decide.
  - destruct (in_reader_loop st client); [|congruence].
    inversion Hstep; subst st'. unfold refresh_read_deadline in Hc'.
    rewrite update_cell_lookup, Hp in Hc'. by case_decide.
  - inversion Hstep; subst st'. exfalso. revert Hc'. unfold writer_step.
    destruct (heap st !! client) as [cl|] eqn:Hcl; [|congruence].
    assert (client ≠ p) by congruence.
    destruct (writer_returned cl); [congruence|].
    destruct (buf (Send cl)); [destruct (closed (Send cl))|destruct (ok && _)];
      simpl; rewrite ?list_lookup_insert_ne by done; congruence.
  - inversion Hstep; subst st'. exfalso. revert Hc'. unfold heartbeat_tick.
    destruct (heap st !! client) as [cl|] eqn:Hcl; [|congruence].
    assert (client ≠ p) by congruence.
    destruct (heartbeat_returned cl); [congruence|].
    destruct (done_closed cl); simpl; rewrite list_lookup_insert_ne by done; congruence.
Qed.

Lemma queues_bounded_step ev st st' :
  registry_ok st → queues_bounded st → step ev st = Done st' → queues_bounded st'.
Proof.
  intros Hok Hb Hstep p c' Hc'.
  destruct (heap st !! p) as [c|] eqn:Hc.
  - destruct (step_queue_change ev st st' p c Hok Hstep Hc) as (c'' & Hc'' & Hcap & Hq).
    assert (c'' = c') by congruence. subst c''.
    destruct (Hb p c Hc) as [Hlen Hsize]. split; [|congruence].
    rewrite Hcap. destruct Hq as [Hbuf _|f Hbuf _ Hlt|m Hbuf _|m now ok Hbuf _ _ _].
    + by rewrite Hbuf.
    + rewrite Hbuf, length_app. simpl. lia.
    + rewrite Hbuf in Hlen. simpl in Hlen. lia.
    + rewrite Hbuf in Hlen. simpl in Hlen. lia.
  - destruct (step_fresh_cell ev st st' p c' Hok Hstep Hc Hc') as (Hbuf & Hcap & _).
    rewrite Hbuf, Hcap. simpl. split; [lia | done].
Qed.

Lemma queues_bounded_run evs : ∀ st st',
  registry_ok st → queues_bounded st → run evs st = Done st' → queues_bounded st'.
Proof.
  induction evs as [|ev evs IH]; intros st st' Hok Hb Hrun; simpl in Hrun.
  - by inversion Hrun; subst.
  - destruct (step_ok ev st Hok) as (st1 & Hstep & Hok1).
    rewrite Hstep in Hrun. simpl in Hrun.
    exact (IH st1 st' Hok1 (queues_bounded_step ev st st1 Hok Hb Hstep) Hrun).
Qed.

Lemma reachable_after evs : reachable (Scenario.after evs).
Proof.
  unfold Scenario.after.
  destruct (run_ok evs (initial [Scenario.room_c1]) (registry_ok_initial _))
    as (st & Hrun & _).
  rewrite Hrun. by exists [Scenario.room_c1], evs.
Qed.

Lemma reachable_three_online : reachable Scenario.three_online.
Proof. apply reachable_after. Qed.

Lemma reachable_bob_congested : reachable Scenario.bob_congested.
Proof. apply reachable_after. Qed.

(** X1. Bounded queues: in every state the hub can reach, the outbound
    queue of every session, registered or not, holds at most sendQueueSize
    = 256 frames, the capacity its channel was made with. *)
Theorem queue_never_exceeds_capacity st :
  reachable st →
  ∀ p c, heap st !! p = Some c →
    length (buf (Send c)) ≤ sendQueueSize ∧ cap (Send c) = sendQueueSize.
Proof.
  intros (chats & evs & Hrun) p c Hc.
  assert (Hb : queues_bounded st).
  { eapply (queues_bounded_run evs (initial chats)); [apply registry_ok_initial| |done].
    intros q d Hd. simpl in Hd. by rewrite lookup_nil in Hd. }
  destruct (Hb p c Hc) as [Hlen Hcap]. split; [lia | done].
Qed.

Lemma queue_never_exceeds_capacity_witness :
  reachable Scenario.bob_congested
  ∧ ∃ c, heap Scenario.bob_congested !! 1 = Some c
      ∧ length (buf (Send c)) = 256
      ∧ length (buf (Send c)) ≤ sendQueueSize ∧ cap (Send c) = sendQueueSize.
Proof.
  split; [apply reachable_bob_congested|].
  unfold Scenario.bob_congested.
  assert (Hbob : clients_m (Scenario.after Scenario.congestion) !! "bob" = Some 1)
    by (vm_compute; reflexivity).
  pose proof (after_registry_ok Scenario.congestion) as Hok.
  destruct (Hok "bob" 1 Hbob) as (c & Hc & _).
  exists c. split; [exact Hc|]. split.
  - assert (Hq : queue (Scenario.after Scenario.congestion) 1 = buf (Send c)).
    { unfold queue. by rewrite Hc. }
    rewrite <- Hq. vm_compute. reflexivity.
  - exact (queue_never_exceeds_capacity (Scenario.after Scenario.congestion)
             (reachable_after Scenario.congestion) 1 c Hc).
Defined.




(** X4. The registry in every reachable state: a registered user maps to a
    session created for that very user, whose Send channel is open; and no
    session is registered under two users. *)
Theorem registered_sessions_are_open_and_distinct st :
  reachable st →
  (∀ u p, lookup_session u st = Some p →
     ∃ c, heap st !! p = Some c ∧ client_UserID c = u ∧ closed (Send c) = false)
  ∧ (∀ u u' p, lookup_session u st = Some p → lookup_session u' st = Some p → u = u').
Proof.
  intros (chats & evs & Hrun).
  destruct (run_ok evs (initial chats) (registry_ok_initial chats)) as (st' & Hrun' & Hok).
  rewrite Hrun in Hrun'. inversion Hrun'; subst st'. split.
  - intros u p Hp. destruct (Hok u p Hp) as (c & Hc & Hu & Hcl & _). by exists c.
  - intros u u' p. by apply registry_ok_inj.
Qed.

Lemma registered_sessions_are_open_and_distinct_witness :
  reachable Scenario.three_online
  ∧ ∃ c, heap Scenario.three_online !! 1 = Some c
      ∧ client_UserID c = "bob" ∧ closed (Send c) = false.
Proof.
  split; [apply reachable_three_online|].
  exact (proj1 (registered_sessions_are_open_and_distinct Scenario.three_online
                  reachable_three_online) "bob" 1 eq_refl).
Defined.

Lemma not_registered_under_own_name st p c :
  registry_ok st → heap st !! p = Some c →
  lookup_session (client_UserID c) st ≠ Some p →
  ∀ u, lookup_session u st ≠ Some p.
Proof.
  intros Hok Hc Hne u Hu. destruct (Hok u p Hu) as (c' & Hc' & Hid' & _).
  apply Hne. congruence.
Qed.

(** X5. Only the session the registry names receives: a dispatch of any
    envelope (message, typing, presence or unknown) leaves the cell of a
    session that is not in the registry exactly as it was. A session that a
    later login of the same user has superseded therefore gets no frame any
    more, although its connection is still open. *)
Theorem unregistered_session_receives_nothing e userID client in_ st p :
  registry_ok st →
  is_Some (heap st !! client) →
  (∀ u, lookup_session u st ≠ Some p) →
  ∃ st', dispatch e userID client in_ st = Done st' ∧ heap st' !! p = heap st !! p.
Proof.
  intros Hok Hcl Hunreg.
  destruct (dispatch_effect e userID client in_ st Hok Hcl)
    as (st' & Hrun & _ & _ & _ & _ & Hcells).
  exists st'. split; [done|].
  destruct (Hcells p) as [Heq|(c & f & u & _ & _ & _ & Hu)]; [done|].
  by destruct (Hunreg u).
Qed.

Lemma unregistered_session_receives_nothing_witness :
  let st := Scenario.second_login in
  let in_ := Scenario.envelope "presence" "" "" in
  registry_ok st
  ∧ is_Some (heap st !! 2)
  ∧ (∀ u, lookup_session u st ≠ Some 0)
  ∧ terminated st 0 = false
  ∧ ∃ st', dispatch Scenario.calm "bob" 2 in_ st = Done st'
      ∧ queue st' 0 = [] ∧ queue st' 1 = [presence_payload "bob" true].
Proof.
  intros st in_.
  assert (Hok : registry_ok st) by apply after_registry_ok.
  assert (Hcl : is_Some (heap st !! 2)) by (eexists; vm_compute; reflexivity).
  assert (Hunreg : ∀ u, lookup_session u st ≠ Some 0).
  { apply (not_registered_under_own_name st 0
             (set_conn (SetReadDeadline (10 + pongWait)) (new_Client "alice")));
      [exact Hok | vm_compute; reflexivity |].
    intros Hu. revert Hu. vm_compute. discriminate. }
  split; [exact Hok|]. split; [exact Hcl|]. split; [exact Hunreg|].
  split; [vm_compute; reflexivity|].
  destruct (unregistered_session_receives_nothing Scenario.calm "bob" 2 in_ st 0
              Hok Hcl Hunreg) as (st' & Hrun & Hsame).
  exists st'. split; [exact Hrun|]. split.
  - unfold queue. rewrite Hsame. vm_compute. reflexivity.
  - assert (Hst' : Done st' = dispatch Scenario.calm "bob" 2 in_ st) by done.
    apply (f_equal (λ r, match r with
                         | Done s => queue s 1
                         | Panic _ => []
                         end)) in Hst'.
    rewrite Hst'. vm_compute. reflexivity.
Defined.

Lemma unregister_store userID st st' :
  unregister userID st = Done st' →
  MereCollection st' = MereCollection st
  ∧ MessagesCollection st' = MessagesCollection st.
Proof.
  unfold unregister. intros Hrun.
  destruct (clients_m st !! userID) as [r|]; [|by inversion Hrun; subst].
  simpl in Hrun. destruct (heap st !! r) as [cl|]; [|done].
  destruct (close_chan (Send cl)) as [ch|]; [|done]. simpl in Hrun.
  by inversion Hrun; subst st'.
Qed.

Lemma step_store ev st st' :
  registry_ok st → step ev st = Done st' →
  membership st' = membership st
  ∧ MessagesCollection st `prefix_of` MessagesCollection st'.
Proof.
  intros Hok Hstep.
  destruct ev as [userID now|client in_ e|client|client now|client now ok|client t1 t2 ok];
    simpl in Hstep.
  - by inversion Hstep; subst st'.
  - destruct (in_reader_loop st client) as [userID|] eqn:Hloop;
      [|by inversion Hstep; subst].
    assert (Hcl : is_Some (heap st !! client)).
    { unfold in_reader_loop in Hloop. by destruct (heap st !! client). }
    destruct (dispatch_effect e userID client in_ st Hok Hcl)
      as (st'' & Hrun & _ & _ & Hmem & Hpre & _).
    rewrite Hrun in Hstep. by inversion Hstep; subst st''.
  - destruct (in_reader_loop st client) as [userID|]; [|by inversion Hstep; subst].
    unfold cleanup in Hstep.
    destruct (unregister userID _) as [st1|] eqn:Hun; [|done].
    destruct (unregister_store userID _ st1 Hun) as [Hmere Hmsg].
    simpl in Hstep. inversion Hstep; subst st'. unfold membership. simpl.
    simpl in Hmere, Hmsg. by rewrite Hmere, Hmsg.
  - destruct (in_reader_loop st client); by inversion Hstep; subst st'.
  - inversion Hstep; subst st'. unfold writer_step, membership.
    destruct (heap st !! client) as [cl|]; [|done].
    destruct (writer_returned cl); [done|].
    destruct (buf (Send cl)); [by destruct (closed (Send cl)) | by destruct (ok && _)].
  - inversion Hstep; subst st'. unfold heartbeat_tick, membership.
    destruct (heap st !! client) as [cl|]; [|done].
    destruct (heartbeat_returned cl); [done|]. by destruct (done_closed cl).
Qed.

(** X6. The hub only ever appends to the message collection and never
    changes who belongs to a room: after any sequence of hub steps the chat
    documents carry the same chatids and participant lists, in the same
    order, and the messages stored before are still there, unchanged, as a
    prefix of the collection. *)
Theorem hub_appends_messages_and_keeps_membership evs : ∀ st st',
  registry_ok st →
  run evs st = Done st' →
  membership st' = membership st
  ∧ MessagesCollection st `prefix_of` MessagesCollection st'.
Proof.
  induction evs as [|ev evs IH]; intros st st' Hok Hrun; simpl in Hrun.
  - by inversion Hrun; subst.
  - destruct (step_ok ev st Hok) as (st1 & Hstep & Hok1).
    rewrite Hstep in Hrun. simpl in Hrun.
    destruct (step_store ev st st1 Hok Hstep) as [Hmem Hpre].
    destruct (IH st1 st' Hok1 Hrun) as [Hmem' Hpre'].
    split; [congruence | by etrans].
Qed.

Lemma hub_appends_messages_and_keeps_membership_witness :
  let st := Scenario.three_online in
  let evs := [EvReceive 0 (Scenario.envelope "message" "c1" "hello") Scenario.calm;
              EvReceive 2 (Scenario.envelope "message" "c1" "intruding") Scenario.calm;
              EvReadError 0] in
  registry_ok st
  ∧ ∃ st', run evs st = Done st'
      ∧ membership st' = [("c1", ["alice"; "bob"; "dave"])]
      ∧ msg_Content <$> MessagesCollection st' = ["hello"].
Proof.
  intros st evs.
  assert (Hok : registry_ok st) by apply after_registry_ok.
  split; [exact Hok|].
  destruct (run evs st) as [st'|] eqn:Hrun; [|exfalso; revert Hrun; vm_compute; discriminate].
  destruct (hub_appends_messages_and_keeps_membership evs st st' Hok Hrun) as [Hmem _].
  exists st'. split; [done|]. split.
  - rewrite Hmem. vm_compute. reflexivity.
  - assert (Hst' : Done st' = run evs st) by done.
    apply (f_equal (λ r, match r with
                         | Done s => msg_Content <$> MessagesCollection s
                         | Panic _ => []
                         end)) in Hst'.
    rewrite Hst'. vm_compute. reflexivity.
Defined.

Lemma cleanup_removes_any_session_witness :
  let st := Scenario.second_login in
  registry_ok st
  ∧ lookup_session "alice" st = Some 1
  ∧ ∃ st', cleanup "alice" 0 st = Done st' ∧ lookup_session "alice" st' = None.
Proof.
  intros st. split; [apply after_registry_ok|]. split; [vm_compute; reflexivity|].
  exact (cleanup_removes_any_session "alice" 0 st (after_registry_ok _)).
Defined.

Lemma cleanup_unregistered userID self st :
  lookup_session userID st = None →
  cleanup userID self st
  = Done (log (LogDisconnected userID)
            (update_cell self (set_conn conn_Close) (update_cell self close_done st))).
Proof.
  unfold lookup_session, cleanup, unregister. intros Hnone.
  change (clients_m (update_cell self close_done st)) with (clients_m st).
  by rewrite Hnone.
Qed.

Lemma cleanup_effect userID self st :
  registry_ok st →
  ∃ st', cleanup userID self st = Done st' ∧ registry_ok st'
    ∧ clients_m st' = delete userID (clients_m st).
Proof.
  intros Hok. unfold cleanup.
  set (st0 := update_cell self _ st).
  assert (Hok0 : registry_ok st0).
  { apply (registry_ok_extends st); [done| |done].
    apply heap_extends_update_cell. intros c. by unfold same_identity. }
  destruct (unregister_ok userID st0 Hok0) as (st1 & Hun & Hok1 & Hm).
  rewrite Hun. simpl. eexists. split; [done|]. split; [|done].
  apply registry_ok_log. apply (registry_ok_extends st1); [done| |done].
  apply heap_extends_update_cell. intros c. by unfold same_identity.
Qed.

(** X8. Teardown after the entry is gone: when two activations for the same
    user end one after the other, the first cleanup removes the entry and the
    second finds none, so the second closes no Send channel (there is no
    close of a closed channel) and leaves the registry alone; it only closes
    its own transport. *)
Theorem second_teardown_closes_no_channel userID a b st :
  registry_ok st →
  ∃ st1 st2,
    cleanup userID a st = Done st1
    ∧ cleanup userID b st1 = Done st2
    ∧ clients_m st2 = clients_m st1
    ∧ (∀ p, Send <$> heap st2 !! p = Send <$> heap st1 !! p)
    ∧ (∀ c, heap st1 !! b = Some c →
         ∃ c', heap st2 !! b = Some c' ∧ conn_closed (conn c') = true).
Proof.
  intros Hok.
  destruct (cleanup_effect userID a st Hok) as (st1 & Hrun1 & Hok1 & Hm1).
  assert (Hnone : lookup_session userID st1 = None).
  { unfold lookup_session. rewrite Hm1. apply lookup_delete_eq. }
  exists st1. eexists. split; [exact Hrun1|].
  split; [by apply cleanup_unregistered|]. split; [done|]. split.
  - intros p. change (heap (log _ ?s)) with (heap s).
    rewrite !update_cell_lookup. case_decide; [|done].
    by destruct (heap st1 !! p).
  - intros c Hc. change (heap (log _ ?s)) with (heap s).
    rewrite !update_cell_lookup, Hc. rewrite !decide_True by done. simpl.
    eexists. split; [done|]. done.
Qed.

Lemma second_teardown_closes_no_channel_witness :
  let st := Scenario.second_login in
  registry_ok st
  ∧ ∃ st2, (st1 ← cleanup "alice" 0 st; cleanup "alice" 1 st1) = Done st2
      ∧ lookup_session "alice" st2 = None
      ∧ lookup_session "bob" st2 = Some 2.
Proof.
  intros st.
  assert (Hok : registry_ok st) by apply after_registry_ok.
  split; [exact Hok|].
  destruct (second_teardown_closes_no_channel "alice" 0 1 st Hok)
    as (st1 & st2 & Hrun1 & Hrun2 & _).
  exists st2. rewrite Hrun1. simpl. split; [exact Hrun2|].
  assert (Hst2 : Done st2 = (st1 ← cleanup "alice" 0 st; cleanup "alice" 1 st1)).
  { rewrite Hrun1. simpl. by rewrite Hrun2. }
  split.
  - apply (f_equal (λ r, match r with
                         | Done s => lookup_session "alice" s
                         | Panic _ => Some 0
                         end)) in Hst2.
    rewrite Hst2. vm_compute. reflexivity.
  - apply (f_equal (λ r, match r with
                         | Done s => lookup_session "bob" s
                         | Panic _ => None
                         end)) in Hst2.
    rewrite Hst2. vm_compute. reflexivity.
Defined.

(* ===================================================================== *)
(*  One activation of HandleWebSocket                                     *)
(* ===================================================================== *)

Lemma dispatch_keeps_activation e userID client in_ st q c :
  registry_ok st → is_Some (heap st !! client) → heap st !! q = Some c →
  ∃ st' c', dispatch e userID client in_ st = Done st'
    ∧ registry_ok st' ∧ clients_m st' = clients_m st
    ∧ heap st' !! q = Some c'
    ∧ conn c' = conn c ∧ done_closed c' = done_closed c
    ∧ client_UserID c' = client_UserID c.
Proof.
  intros Hok Hcl Hc.
  destruct (dispatch_effect e userID client in_ st Hok Hcl)
    as (st' & Hrun & Hok' & Hm & _ & _ & Hcells).
  exists st'. destruct (Hcells q) as [Heq|(c0 & f & u & H1 & H2 & _)].
  - exists c. rewrite Heq. done.
  - assert (c0 = c) by congruence. subst c0. exists (push f c). done.
Qed.

Lemma reader_loop_effect userID client inputs : ∀ st c,
  registry_ok st → heap st !! client = Some c →
  ∃ status st' c', reader_loop userID client inputs st = Done (status, st')
    ∧ registry_ok st' ∧ clients_m st' = clients_m st
    ∧ heap st' !! client = Some c'
    ∧ conn c' = conn c ∧ done_closed c' = done_closed c
    ∧ (ReadErr ∈ inputs → status = Broke)
    ∧ (ReadErr ∉ inputs → status = Reading).
Proof.
  induction inputs as [|[in_ e|] rest IH]; intros st c Hok Hc; simpl.
  - exists Reading, st, c. repeat split; try done.
    intros Hin. by apply elem_of_nil in Hin.
  - destruct (dispatch_keeps_activation e userID client in_ st client c Hok)
      as (st1 & c1 & Hrun & Hok1 & Hm1 & Hc1 & Hconn1 & Hdone1 & _); [done..|].
    rewrite Hrun. simpl.
    destruct (IH st1 c1 Hok1 Hc1)
      as (status & st' & c' & Hloop & Hok' & Hm' & Hc' & Hconn' & Hdone' & Hb & Hr).
    exists status, st', c'. split; [done|]. split; [done|]. split; [congruence|].
    split; [done|]. split; [congruence|]. split; [congruence|]. split.
    + intros Hin. apply Hb. apply elem_of_cons in Hin as [?|?]; [done|done].
    + intros Hnin. apply Hr. intros Hin. apply Hnin. by right.
  - exists Broke, (log (LogReadError userID) st), c. repeat split; try done.
    intros Hnin. exfalso. apply Hnin. by left.
Qed.

Lemma unregister_keeps_activation userID st st' q c :
  unregister userID st = Done st' → heap st !! q = Some c →
  ∃ c', heap st' !! q = Some c' ∧ conn c' = conn c ∧ done_closed c' = done_closed c.
Proof.
  unfold unregister. intros Hrun Hc.
  destruct (clients_m st !! userID) as [r|].
  2: { inversion Hrun; subst. by exists c. }
  simpl in Hrun. destruct (heap st !! r) as [cl|] eqn:Hr; [|done].
  destruct (close_chan (Send cl)) as [ch|]; [|done]. simpl in Hrun.
  inversion Hrun; subst st'. clear Hrun.
  rewrite update_cell_lookup. simpl. rewrite Hc.
  case_decide; simpl; by eexists.
Qed.

Lemma cleanup_closes_own_transport userID self st st' c :
  cleanup userID self st = Done st' → heap st !! self = Some c →
  ∃ c', heap st' !! self = Some c'
    ∧ conn_closed (conn c') = true ∧ done_closed c' = true.
Proof.
  unfold cleanup. intros Hrun Hc.
  assert (Hc0 : heap (update_cell self close_done st) !! self = Some (close_done c)).
  { by rewrite update_cell_lookup, decide_True, Hc. }
  destruct (unregister userID (update_cell self close_done st)) as [st1|] eqn:Hun;
    [|done].
  destruct (unregister_keeps_activation userID _ st1 self _ Hun Hc0)
    as (c1 & Hc1 & Hconn1 & Hdone1).
  simpl in Hrun. inversion Hrun; subst st'. clear Hrun.
  change (heap (log _ ?s)) with (heap s).
  rewrite update_cell_lookup, decide_True, Hc1 by done. simpl.
  eexists. split; [done|]. split; [done|]. simpl. by rewrite Hdone1.
Qed.

(** X9. One activation of HandleWebSocket, run by itself from a state that
    satisfies the registry invariant, never panics. If its inputs contain a
    read error, it leaves the loop there and returns with its user
    unregistered, its transport closed and its done channel closed, whatever
    envelopes came before and after. If they contain none, it is still
    reading: its user is mapped to the new session, whose transport and
    Send channel are open. *)
Theorem HandleWebSocket_leaves_user_unregistered userID now inputs st :
  registry_ok st →
  let client := length (heap st) in
  ∃ status st', HandleWebSocket userID now inputs st = Done (status, st')
    ∧ (ReadErr ∈ inputs →
         status = Broke
         ∧ lookup_session userID st' = None
         ∧ ∃ c, heap st' !! client = Some c
             ∧ conn_closed (conn c) = true ∧ done_closed c = true)
    ∧ (ReadErr ∉ inputs →
         status = Reading
         ∧ lookup_session userID st' = Some client
         ∧ ∃ c, heap st' !! client = Some c
             ∧ conn_closed (conn c) = false ∧ closed (Send c) = false).
Proof.
  intros Hok client. unfold HandleWebSocket.
  change (connect userID st)
    with (client, register userID client
            (set_heap (λ h, h ++ [new_Client userID]) (log (LogConnected userID) st))).
  cbv iota beta.
  set (st0 := refresh_read_deadline now client _).
  assert (Hok0 : registry_ok st0).
  { apply registry_ok_refresh. exact (registry_ok_connect userID st Hok). }
  assert (Hc0 : heap st0 !! client
                = Some (set_conn (SetReadDeadline (now + pongWait)%Z) (new_Client userID))).
  { unfold st0, refresh_read_deadline. rewrite update_cell_lookup, decide_True by done.
    simpl. unfold client. by rewrite lookup_app_r, Nat.sub_diag by lia. }
  assert (Hm0 : clients_m st0 !! userID = Some client).
  { unfold st0. simpl. apply lookup_insert_eq. }
  destruct (reader_loop_effect userID client inputs st0 _ Hok0 Hc0)
    as (status & st1 & c1 & Hloop & Hok1 & Hm1 & Hc1 & Hconn1 & Hdone1 & Hb & Hr).
  rewrite Hloop. simpl.
  destruct status.
  - exists Reading, st1. split; [done|]. split.
    { intros Hin. by specialize (Hb Hin). }
    intros _. split; [done|]. split; [unfold lookup_session; congruence|].
    exists c1. split; [done|]. split; [by rewrite Hconn1|].
    destruct (Hok1 userID client) as (c' & Hc' & _ & Hcl & _); [congruence|].
    congruence.
  - destruct (cleanup_effect userID client st1 Hok1) as (st2 & Hrun2 & _ & Hm2).
    rewrite Hrun2. simpl. exists Broke, st2. split; [done|]. split.
    2: { intros Hnin. by specialize (Hr Hnin). }
    intros _. split; [done|]. split.
    + unfold lookup_session. rewrite Hm2. apply lookup_delete_eq.
    + by apply (cleanup_closes_own_transport userID client st1 st2 c1).
Qed.

Lemma HandleWebSocket_leaves_user_unregistered_witness :
  let st := Scenario.three_online in
  let inputs := [ReadOk (Scenario.envelope "typing" "c1" "") Scenario.calm;
                 ReadErr;
                 ReadOk (Scenario.envelope "presence" "" "") Scenario.calm] in
  registry_ok st
  ∧ ReadErr ∈ inputs
  ∧ ∃ st', HandleWebSocket "dave" 50 inputs st = Done (Broke, st')
      ∧ lookup_session "dave" st' = None
      ∧ queue st' 0 = [typing_payload "dave" "c1"].
Proof.
  intros st inputs.
  assert (Hok : registry_ok st) by apply after_registry_ok.
  assert (Hin : ReadErr ∈ inputs) by (right; left).
  split; [exact Hok|]. split; [exact Hin|].
  destruct (HandleWebSocket_leaves_user_unregistered "dave" 50 inputs st Hok)
    as (status & st' & Hrun & Hbroke & _).
  destruct (Hbroke Hin) as (-> & Hnone & _).
  exists st'. split; [exact Hrun|]. split; [exact Hnone|].
  assert (Hst' : Done (Broke, st') = HandleWebSocket "dave" 50 inputs st) by done.
  apply (f_equal (λ r, match r with
                       | Done (_, s) => queue s 0
                       | Panic _ => []
                       end)) in Hst'.
  rewrite Hst'. vm_compute. reflexivity.
Defined.

(* ===================================================================== *)
(*  A successful ingest, end to end                                       *)
(* ===================================================================== *)

Lemma find_touch_first cid t l :
  List.find (has_chatid cid) (touch_first cid t l)
  = touched t <$> List.find (has_chatid cid) l.
Proof.
  induction l as [|c l IH]; [done|]. simpl.
  destruct (has_chatid cid c) eqn:Hc; simpl.
  - unfold has_chatid in *. simpl. by rewrite Hc.
  - by rewrite Hc.
Qed.

Lemma find_member_counts cid user chat l :
  List.find (has_chatid cid) l = Some chat → user ∈ Participants chat →
  ∃ n, length (List.filter (has_member cid user) l) = S n.
Proof.
  intros Hfind Hin. apply List.find_some in Hfind as [Hl Hcid].
  assert (Hmem : List.In chat (List.filter (has_member cid user) l)).
  { apply List.filter_In. split; [done|]. unfold has_member. rewrite Hcid. simpl.
    by apply bool_decide_eq_true. }
  destruct (List.filter (has_member cid user) l) as [|x xs]; [done|].
  by exists (length xs).
Qed.

(** X10. A successful ingest, end to end: for a sender listed in the room
    that the chatid resolves to, an envelope with content or media and a
    store that answers every call, handleIncomingMessage appends exactly one
    message carrying the envelope's chatid, the sender's userID and the
    content as received, sets the room's updatedAt, and puts the message
    frame on the queue of every registered participant that has room for it,
    the sender's own session included. The frame carries the stored id, the
    sender, the content and the chatid, and the clientId exactly when the
    envelope had a non-empty one. *)
Theorem ingest_persists_and_fans_out e client c in_ chat st :
  registry_ok st →
  heap st !! client = Some c →
  FindOne e (ChatID in_) st = Some chat →
  client_UserID c ∈ Participants chat →
  CountDocuments_fails e = false →
  InsertOne_fails e = false →
  UpdateOne_fails e = false →
  Content in_ ≠ "" ∨ MediaURL in_ ≠ "" →
  let sender := client_UserID c in
  let msg := stored_message e sender in_ (next_oid st) in
  let frame := message_payload msg in_ in
  ∃ st', handleIncomingMessage e client in_ st = Done st'
    ∧ MessagesCollection st' = MessagesCollection st ++ [msg]
    ∧ FindOne e (ChatID in_) st' = Some (touched (now_updated e) chat)
    ∧ (∀ u p, u ∈ Participants chat → lookup_session u st = Some p →
         queue_full st p = false → queue st' p = queue st p ++ [frame])
    ∧ (lookup_session sender st = Some client → queue_full st client = false →
         queue st' client = queue st client ++ [frame])
    ∧ frame !! "id" = Some (VHex (next_oid st))
    ∧ frame !! "sender" = Some (VString sender)
    ∧ frame !! "content" = Some (VString (Content in_))
    ∧ frame !! "chatid" = Some (VString (ChatID in_))
    ∧ frame !! "clientId"
      = (if bool_decide (ClientID in_ = "") then None else Some (VString (ClientID in_))).
Proof.
  intros Hok Hc Hfind Hmember Hcount Hins Hupd Hne sender msg frame.
  assert (Hffail : FindOne_fails e = false).
  { unfold FindOne in Hfind. by destruct (FindOne_fails e). }
  assert (Hfind' : List.find (has_chatid (ChatID in_)) (MereCollection st) = Some chat).
  { unfold FindOne in Hfind. by rewrite Hffail in Hfind. }
  destruct (find_member_counts (ChatID in_) sender chat _ Hfind' Hmember) as [n Hn].
  assert (Hp := persistMessage_inserted e in_ sender st Hne Hins).
  fold msg in Hp. unfold UpdateOne in Hp. rewrite Hupd in Hp.
  set (st1 := mkHub (clients_m (with_message msg st)) (heap (with_message msg st))
                (touch_first (ChatID in_) (now_updated e) (MereCollection (with_message msg st)))
                (MessagesCollection (with_message msg st)) (next_oid (with_message msg st))
                (logs (with_message msg st))) in Hp.
  assert (Hhandle : handleIncomingMessage e client in_ st
                    = broadcastToChat e (ChatID in_) frame st1).
  { unfold handleIncomingMessage, CountDocuments. rewrite Hc, Hcount.
    fold sender. rewrite Hn. fold sender. by rewrite Hp. }
  assert (Hok1 : registry_ok st1) by exact Hok.
  assert (Hfind1 : FindOne e (ChatID in_) st1 = Some (touched (now_updated e) chat)).
  { unfold FindOne. rewrite Hffail. unfold st1. simpl.
    by rewrite find_touch_first, Hfind'. }
  destruct (broadcastToChat_found e frame st1 Hok1 (ChatID in_) _ Hfind1)
    as (st' & Hrun & _ & Hmere & Hmsg & _ & Hheap & _).
  assert (Hq : ∀ u p, u ∈ Participants chat → lookup_session u st = Some p →
             queue_full st p = false → queue st' p = queue st p ++ [frame]).
  { intros u p Hu Hp' Hnf. destruct (Hok u p Hp') as (c' & Hc' & _).
    rewrite (queue_deliver frame st st' p c' Hc'); [by rewrite Hnf|].
    rewrite Hheap. simpl. rewrite decide_True, Hc'; [done|].
    apply elem_of_map_ptrs. exists u. apply resolve_targets_lookup. done. }
  exists st'. rewrite Hhandle. split; [done|]. split; [by rewrite Hmsg|].
  split; [unfold FindOne in *; by rewrite Hmere|]. split; [exact Hq|].
  split; [by apply Hq|].
  unfold frame, message_payload.
  destruct (bool_decide (ClientID in_ = "")); simpl; repeat split; reflexivity.
Qed.

Lemma ingest_persists_and_fans_out_witness :
  let st := Scenario.three_online in
  let in_ := mkIncoming "message" "c1" "hello" "" "" false "k7" in
  let c := set_conn (SetReadDeadline (10 + pongWait)) (new_Client "alice") in
  let msg := stored_message Scenario.calm "alice" in_ 0 in
  registry_ok st
  ∧ heap st !! 0 = Some c
  ∧ FindOne Scenario.calm "c1" st = Some Scenario.room_c1
  ∧ ("alice" ∈ Participants Scenario.room_c1)
  ∧ ∃ st', handleIncomingMessage Scenario.calm 0 in_ st = Done st'
      ∧ MessagesCollection st' = [msg]
      ∧ queue st' 0 = [message_payload msg in_]
      ∧ queue st' 1 = [message_payload msg in_]
      ∧ message_payload msg in_ !! "clientId" = Some (VString "k7").
Proof.
  intros st in_ c msg.
  assert (Hok : registry_ok st) by apply after_registry_ok.
  assert (Hc : heap st !! 0 = Some c) by (vm_compute; reflexivity).
  assert (Hfind : FindOne Scenario.calm (ChatID in_) st = Some Scenario.room_c1)
    by (vm_compute; reflexivity).
  assert (Hin : client_UserID c ∈ Participants Scenario.room_c1).
  { apply (bool_decide_unpack _). vm_compute. exact I. }
  split; [exact Hok|]. split; [exact Hc|]. split; [exact Hfind|]. split; [exact Hin|].
  destruct (ingest_persists_and_fans_out Scenario.calm 0 c in_ Scenario.room_c1 st
              Hok Hc Hfind Hin eq_refl eq_refl eq_refl)
    as (st' & Hrun & Hmsg & _ & Hq & _ & _ & _ & _ & _ & Hcid); [left; discriminate|].
  exists st'. split; [exact Hrun|]. split; [exact Hmsg|]. split; [|split].
  - apply (Hq "alice" 0 Hin); vm_compute; reflexivity.
  - apply (Hq "bob" 1); [|vm_compute; reflexivity..].
    apply (bool_decide_unpack _). vm_compute. exact I.
  - exact Hcid.
Defined.

(* ===================================================================== *)
(*  The REST entry points to the same persistence                         *)
(* ===================================================================== *)

Lemma FindOne_member_found e chatID user st chat :
  FindOne_member e chatID user st = Found chat →
  chat ∈ MereCollection st ∧ chat_ChatID chat = chatID ∧ user ∈ Participants chat.
Proof.
  unfold FindOne_member. destruct (FindOne_fails e); [done|].
  destruct (List.find _ _) as [c|] eqn:Hfind; [|done].
  intros [= <-]. apply List.find_some in Hfind as [Hin Hmem].
  unfold has_member, has_chatid in Hmem. apply andb_true_iff in Hmem as [H1 H2].
  apply bool_decide_eq_true in H1, H2. split; [by apply list_elem_of_In | done].
Qed.

Lemma persistMessage_outcome e chatID sender content mediaURL mediaType st :
  match persistMessage e chatID sender content mediaURL mediaType st with
  | (inr _, st') => st' = st
  | (inl msg, st') =>
      MessagesCollection st' = MessagesCollection st ++ [msg]
      ∧ msg_ChatID msg = chatID ∧ UserID msg = sender ∧ msg_Content msg = content
      ∧ msg_Media msg
        = (if negb (bool_decide (mediaURL = "")) && negb (bool_decide (mediaType = ""))
           then Some (mkMedia mediaURL mediaType) else None)
      ∧ ID msg = next_oid st
      ∧ (content ≠ "" ∨ mediaURL ≠ "")
      ∧ InsertOne_fails e = false
  end.
Proof.
  unfold persistMessage.
  destruct (bool_decide (content = "") && bool_decide (mediaURL = "")) eqn:Hboth;
    [done|].
  unfold InsertOne. destruct (InsertOne_fails e) eqn:Hins; [done|].
  cbv beta iota zeta.
  match goal with
  | |- context [UpdateOne ?e' ?c' ?t' ?s'] =>
      destruct (UpdateOne_frame e' c' t' s') as (_ & _ & Hmsg & _)
  end.
  split; [by rewrite Hmsg|]. repeat split; try done.
  apply andb_false_iff in Hboth as [H|H]; apply bool_decide_eq_false in H; auto.
Qed.

(** X11. SendMessageREST stores but does not broadcast: whatever the
    request, the handler leaves the registry, every session's queue and the
    log untouched and never changes a room's membership, so a message sent
    over REST is not pushed to connected websocket sessions. It answers 200
    only when the requester is a participant of the chat, the body decoded and
    its content is not blank; then exactly one message is appended, carrying
    the content as received (not trimmed), no media, the requester as sender.
    With any other status the message collection is unchanged. *)
Theorem SendMessageREST_stores_without_broadcast TrimSpace e user chatID decoded st :
  let resp := (SendMessageREST TrimSpace e user chatID decoded st).1 in
  let st' := (SendMessageREST TrimSpace e user chatID decoded st).2 in
  clients_m st' = clients_m st
  ∧ heap st' = heap st
  ∧ logs st' = logs st
  ∧ membership st' = membership st
  ∧ (status resp = StatusOK →
       ∃ body msg chat,
         decoded = Some body
         ∧ TrimSpace (body_Content body) ≠ ""
         ∧ chat ∈ MereCollection st ∧ chat_ChatID chat = chatID
         ∧ user ∈ Participants chat
         ∧ MessagesCollection st' = MessagesCollection st ++ [msg]
         ∧ msg_Content msg = body_Content body
         ∧ UserID msg = user ∧ msg_ChatID msg = chatID ∧ msg_Media msg = None
         ∧ resp = mkResponse StatusOK (BodyPayload (rest_payload msg (body_ClientID body))))
  ∧ (status resp ≠ StatusOK → MessagesCollection st' = MessagesCollection st).
Proof.
  unfold SendMessageREST.
  destruct (FindOne_member e chatID user st) as [chat| |] eqn:Hfind;
    try (simpl; repeat split; try done; intros [=]).
  destruct decoded as [body|]; [|simpl; repeat split; try done; intros [=]].
  destruct (bool_decide (TrimSpace (body_Content body) = "")) eqn:Hblank;
    [simpl; repeat split; try done; intros [=]|].
  apply bool_decide_eq_false in Hblank.
  pose proof (persistMessage_frame e chatID user (body_Content body) "" "" st) as Hf.
  pose proof (persistMessage_store e chatID user (body_Content body) "" "" st) as Hs.
  pose proof (persistMessage_outcome e chatID user (body_Content body) "" "" st) as Ho.
  destruct (persistMessage e chatID user (body_Content body) "" "" st)
    as [[msg|err] st1]; simpl in *.
  - destruct Hf as (Hm & Hh & Hl). destruct Hs as [Hmem _].
    destruct Ho as (Hmsg & Hcid & Hu & Hcontent & Hmedia & _).
    split; [done|]. split; [done|]. split; [done|]. split; [done|]. split.
    + intros _. destruct (FindOne_member_found e chatID user st chat Hfind)
        as (Hin & Hid & Hpart).
      exists body, msg, chat. repeat split; done.
    + intros Hne. by destruct Hne.
  - subst st1. repeat split; try done; intros [=].
Qed.

(** X12. The two entry points validate differently: a content that is not
    empty but blank (it trims to the empty string) is refused by
    SendMessageREST with status 400 and nothing stored, while the same
    content sent by the same member in a websocket "message" envelope is
    persisted as it is. *)
Theorem blank_content_refused_by_rest_stored_by_websocket
    TrimSpace e client c in_ n st :
  heap st !! client = Some c →
  CountDocuments e (ChatID in_) (client_UserID c) st = Some (S n) →
  FindOne_fails e = false →
  InsertOne_fails e = false →
  Content in_ ≠ "" →
  TrimSpace (Content in_) = "" →
  SendMessageREST TrimSpace e (client_UserID c) (ChatID in_)
      (Some (mkSendBody (Content in_) (ClientID in_))) st
    = (writeErr "content required" StatusBadRequest, st)
  ∧ ∃ st1,
      handleIncomingMessage e client in_ st
      = broadcastToChat e (ChatID in_)
          (message_payload (stored_message e (client_UserID c) in_ (next_oid st)) in_) st1
      ∧ MessagesCollection st1
        = MessagesCollection st ++ [stored_message e (client_UserID c) in_ (next_oid st)]
      ∧ msg_Content (stored_message e (client_UserID c) in_ (next_oid st)) = Content in_.
Proof.
  intros Hc Hcount Hff Hins Hne Hblank. split.
  - unfold SendMessageREST, FindOne_member. rewrite Hff.
    unfold CountDocuments in Hcount.
    destruct (CountDocuments_fails e); [done|]. inversion Hcount as [Hlen].
    destruct (List.find (has_member (ChatID in_) (client_UserID c)) (MereCollection st))
      as [chat|] eqn:Hfind.
    + simpl. by rewrite Hblank, bool_decide_eq_true_2.
    + exfalso.
      assert (Hnil : List.filter (has_member (ChatID in_) (client_UserID c))
                       (MereCollection st) = []).
      { apply length_zero_iff_nil.
        apply (count_false (has_member (ChatID in_) (client_UserID c))).
        intros x Hx. apply list_elem_of_In in Hx.
        by apply (List.find_none _ _ Hfind). }
      rewrite Hnil in Hlen. done.
  - eexists. split; [|split; [|done]].
    + unfold handleIncomingMessage. rewrite Hc, Hcount.
      by rewrite (persistMessage_inserted e in_ (client_UserID c) st (or_introl Hne) Hins).
    + by destruct (UpdateOne_frame e (ChatID in_) (now_updated e)
                     (with_message (stored_message e (client_UserID c) in_ (next_oid st)) st))
        as (_ & _ & -> & _).
Qed.

Lemma blank_content_refused_by_rest_stored_by_websocket_witness :
  let st := Scenario.three_online in
  let in_ := Scenario.envelope "message" "c1" "   " in
  let c := set_conn (SetReadDeadline (10 + pongWait)) (new_Client "alice") in
  heap st !! 0 = Some c
  ∧ CountDocuments Scenario.calm (ChatID in_) (client_UserID c) st = Some 1
  ∧ Content in_ ≠ ""
  ∧ Scenario.trim (Content in_) = ""
  ∧ (SendMessageREST Scenario.trim Scenario.calm "alice" "c1"
       (Some (mkSendBody "   " "")) st).1 = writeErr "content required" 400
  ∧ ∃ st', handleIncomingMessage Scenario.calm 0 in_ st = Done st'
      ∧ msg_Content <$> MessagesCollection st' = ["   "].
Proof.
  intros st in_ c.
  assert (Hc : heap st !! 0 = Some c) by (vm_compute; reflexivity).
  assert (Hcount : CountDocuments Scenario.calm (ChatID in_) (client_UserID c) st = Some 1)
    by (vm_compute; reflexivity).
  assert (Hne : Content in_ ≠ "") by discriminate.
  assert (Hblank : Scenario.trim (Content in_) = "") by reflexivity.
  split; [exact Hc|]. split; [exact Hcount|]. split; [exact Hne|]. split; [exact Hblank|].
  destruct (blank_content_refused_by_rest_stored_by_websocket Scenario.trim Scenario.calm
              0 c in_ 0 st Hc Hcount eq_refl eq_refl Hne Hblank) as [Hrest _].
  split.
  - change (SendMessageREST Scenario.trim Scenario.calm "alice" "c1"
              (Some (mkSendBody "   " "")) st)
      with (SendMessageREST Scenario.trim Scenario.calm (client_UserID c) (ChatID in_)
              (Some (mkSendBody (Content in_) (ClientID in_))) st).
    by rewrite Hrest.
  - eexists. split; vm_compute; reflexivity.
Defined.

(** X13. UploadAttachment for a participant of the chat: with an empty
    "savedname" form value nothing is stored and the answer is 500 "failed to
    persist message"; with a savedname and a store that accepts the insert,
    the answer is 200 and one message is appended whose content is empty and
    whose media is attached only if the "contenttype" form value is not empty,
    so an upload without contenttype leaves a message with neither content nor
    media. In no case is anything enqueued to a websocket session. *)
Theorem UploadAttachment_stores_media_message e user chatID contentType savedName chat st :
  FindOne_member e chatID user st = Found chat →
  let resp := (UploadAttachment e user chatID contentType savedName st).1 in
  let st' := (UploadAttachment e user chatID contentType savedName st).2 in
  clients_m st' = clients_m st
  ∧ heap st' = heap st
  ∧ logs st' = logs st
  ∧ (savedName = "" →
       resp = writeErr "failed to persist message" StatusInternalServerError ∧ st' = st)
  ∧ (savedName ≠ "" → InsertOne_fails e = false →
       ∃ msg, resp = mkResponse StatusOK (BodyMessage msg)
         ∧ MessagesCollection st' = MessagesCollection st ++ [msg]
         ∧ msg_Content msg = ""
         ∧ UserID msg = user ∧ msg_ChatID msg = chatID
         ∧ msg_Media msg = (if bool_decide (contentType = "") then None
                            else Some (mkMedia savedName contentType))).
Proof.
  intros Hfind. unfold UploadAttachment, persistMediaMessage. rewrite Hfind.
  pose proof (persistMessage_frame e chatID user "" savedName contentType st) as Hf.
  pose proof (persistMessage_outcome e chatID user "" savedName contentType st) as Ho.
  destruct (persistMessage e chatID user "" savedName contentType st)
    as [[msg|err] st1] eqn:Hp; simpl in *.
  - destruct Hf as (Hm & Hh & Hl).
    destruct Ho as (Hmsg & Hcid & Hu & Hcontent & Hmedia & _ & [Hne|Hne] & _); [done|].
    split; [done|]. split; [done|]. split; [done|]. split; [done|].
    intros _ _. exists msg. repeat split; try done.
    rewrite Hmedia. rewrite (bool_decide_eq_false_2 _ Hne). simpl.
    by destruct (bool_decide (contentType = "")).
  - subst st1. split; [done|]. split; [done|]. split; [done|]. split; [done|].
    intros Hne Hins. exfalso.
    unfold persistMessage, InsertOne in Hp.
    rewrite (bool_decide_eq_false_2 _ Hne), andb_false_r, Hins in Hp. done.
Qed.

Lemma UploadAttachment_stores_media_message_witness :
  let st := Scenario.three_online in
  FindOne_member Scenario.calm "c1" "alice" st = Found Scenario.room_c1
  ∧ (UploadAttachment Scenario.calm "alice" "c1" "image/png" "" st).1
    = writeErr "failed to persist message" 500
  ∧ ∃ msg, (UploadAttachment Scenario.calm "alice" "c1" "" "a.png" st).1
           = mkResponse 200 (BodyMessage msg)
      ∧ msg_Content msg = "" ∧ msg_Media msg = None.
Proof.
  intros st.
  assert (Hfind : FindOne_member Scenario.calm "c1" "alice" st = Found Scenario.room_c1)
    by (vm_compute; reflexivity).
  split; [exact Hfind|]. split.
  - destruct (UploadAttachment_stores_media_message Scenario.calm "alice" "c1"
                "image/png" "" Scenario.room_c1 st Hfind) as (_ & _ & _ & Hempty & _).
    exact (proj1 (Hempty eq_refl)).
  - destruct (UploadAttachment_stores_media_message Scenario.calm "alice" "c1"
                "" "a.png" Scenario.room_c1 st Hfind) as (_ & _ & _ & _ & Hsaved).
    destruct Hsaved as (msg & Hresp & _ & Hcontent & _ & _ & Hmedia);
      [discriminate | reflexivity |].
    exists msg. split; [exact Hresp|]. split; [exact Hcontent | exact Hmedia].
Defined.

(* ===================================================================== *)
(*  Pagination                                                            *)
(* ===================================================================== *)

(** X14. Pagination values: whatever strconv.ParseInt answers, the limit
    handed to the store is positive and the skip is not negative, provided the
    handler's default limit is positive (it is 50 or 20); an empty, unparsable,
    zero or negative "limit" silently gives the default and never an error,
    likewise a negative "skip" gives 0. A limit other than the default, or a
    skip other than 0, is always the value parsed from a non-empty parameter. *)
Theorem pagination_is_positive_and_defaults ParseInt default l s :
  (0 < default)%Z →
  (0 < page_limit ParseInt default l)%Z
  ∧ (0 ≤ page_skip ParseInt s)%Z
  ∧ (l = "" ∨ ParseInt l = None ∨ (∃ v, ParseInt l = Some v ∧ (v ≤ 0)%Z) →
     page_limit ParseInt default l = default)
  ∧ (s = "" ∨ ParseInt s = None ∨ (∃ v, ParseInt s = Some v ∧ (v < 0)%Z) →
     page_skip ParseInt s = 0%Z)
  ∧ (page_limit ParseInt default l ≠ default →
     l ≠ "" ∧ ParseInt l = Some (page_limit ParseInt default l))
  ∧ (page_skip ParseInt s ≠ 0%Z →
     s ≠ "" ∧ ParseInt s = Some (page_skip ParseInt s)).
Proof.
  intros Hdef. unfold page_limit, page_skip, parseInt64.
  split; [|split; [|split; [|split; [|split]]]].
  - case_bool_decide; [done|]. destruct (ParseInt l) as [v|]; [|done].
    by case_bool_decide.
  - case_bool_decide; [done|]. destruct (ParseInt s) as [v|]; [|done].
    by case_bool_decide.
  - intros [->|[Hnone|(v & Hv & Hle)]]; [done| |].
    + rewrite Hnone. by case_bool_decide.
    + rewrite Hv. case_bool_decide; [done|]. case_bool_decide; [lia|done].
  - intros [->|[Hnone|(v & Hv & Hlt)]]; [done| |].
    + rewrite Hnone. by case_bool_decide.
    + rewrite Hv. case_bool_decide; [done|]. case_bool_decide; [lia|done].
  - case_bool_decide as Hl; [done|]. destruct (ParseInt l) as [v|]; [|done].
    case_bool_decide; [done|done].
  - case_bool_decide as Hs; [done|]. destruct (ParseInt s) as [v|]; [|done].
    case_bool_decide; [done|done].
Qed.

Lemma pagination_is_positive_and_defaults_witness :
  (0 < 50)%Z
  ∧ page_limit Scenario.parse_decimal 50 "-3" = 50%Z
  ∧ page_limit Scenario.parse_decimal 50 "0" = 50%Z
  ∧ page_limit Scenario.parse_decimal 50 "ten" = 50%Z
  ∧ page_limit Scenario.parse_decimal 50 "10" = 10%Z
  ∧ page_skip Scenario.parse_decimal "-1" = 0%Z
  ∧ (0 < page_limit Scenario.parse_decimal 50 "10")%Z.
Proof.
  split; [lia|]. do 5 (split; [reflexivity|]).
  exact (proj1 (pagination_is_positive_and_defaults Scenario.parse_decimal 50 "10" ""
                  ltac:(lia))).
Defined.

(* ===================================================================== *)
(*  StartNewChat: the participant list                                    *)
(* ===================================================================== *)

Lemma string_le_spec s1 s2 :
  string_le s1 s2 ↔ OrderedTypeEx.String_as_OT.lt s1 s2 ∨ s1 = s2.
Proof.
  unfold string_le, String.leb.
  rewrite <- OrderedTypeEx.String_as_OT.cmp_lt, <- OrderedTypeEx.String_as_OT.cmp_eq.
  unfold OrderedTypeEx.String_as_OT.cmp.
  destruct (String.compare s1 s2); intuition discriminate.
Qed.

#[global] Instance string_le_total : Total string_le.
Proof. intros s1 s2. apply String.leb_total. Qed.

#[global] Instance string_le_antisymm : AntiSymm (=) string_le.
Proof. intros s1 s2. apply String.leb_antisym. Qed.

#[global] Instance string_le_trans : Transitive string_le.
Proof.
  intros s1 s2 s3. rewrite !string_le_spec.
  intros [H12| ->] [H23| ->]; auto.
  left. by eapply OrderedTypeEx.String_as_OT.lt_trans.
Qed.

Lemma dedup_participants_spec requested : ∀ seen,
  NoDup (dedup_participants seen requested).1
  ∧ (∀ p, p ∈ (dedup_participants seen requested).1
          ↔ p ∈ requested ∧ p ≠ "" ∧ p ∉ seen)
  ∧ (∀ p, p ∈ (dedup_participants seen requested).2
          ↔ p ∈ seen ∨ p ∈ (dedup_participants seen requested).1).
Proof.
  induction requested as [|q rest IH]; intros seen; simpl.
  - split; [constructor|]. split; intros p; rewrite elem_of_nil; tauto.
  - case_bool_decide as Hq.
    { destruct (IH seen) as (Hnd & Hl & Hs). split; [done|]. split; [|done].
      intros p. rewrite Hl, elem_of_cons. intuition congruence. }
    case_bool_decide as Hseen.
    { destruct (IH seen) as (Hnd & Hl & Hs). split; [done|]. split; [|done].
      intros p. rewrite Hl, elem_of_cons. intuition congruence. }
    destruct (IH ({[q]} ∪ seen)) as (Hnd & Hl & Hs).
    destruct (dedup_participants ({[q]} ∪ seen) rest) as [l seen']. simpl in *.
    split; [|split].
    + apply NoDup_cons. split; [|done]. rewrite Hl.
      intros (_ & _ & Hnot). apply Hnot, elem_of_union. left. by apply elem_of_singleton.
    + intros p. rewrite !elem_of_cons, Hl, elem_of_union, elem_of_singleton.
      destruct (decide (p = q)) as [->|Hne]; intuition congruence.
    + intros p. rewrite Hs, elem_of_cons, elem_of_union, elem_of_singleton. tauto.
Qed.

Lemma chat_participants_list user requested :
  requested ≠ [] →
  ∃ l, chat_participants user requested = ChatParticipants l
    ∧ NoDup l ∧ Sorted string_le l
    ∧ (∀ p, p ∈ l ↔ p = user ∨ (p ∈ requested ∧ p ≠ "")).
Proof.
  intros Hne. unfold chat_participants.
  rewrite bool_decide_eq_false_2 by (by destruct requested).
  destruct (dedup_participants_spec requested ∅) as (Hnd & Hl & Hs).
  destruct (dedup_participants ∅ requested) as [l seen]. simpl in *.
  set (l' := if bool_decide (user ∈ seen) then l else l ++ [user]).
  assert (Hnd' : NoDup l').
  { unfold l'. case_bool_decide as Hu; [done|].
    apply NoDup_app. split; [done|]. split; [|apply NoDup_singleton].
    intros p Hp ->%list_elem_of_singleton. apply Hu, Hs. by right. }
  assert (Hl' : ∀ p, p ∈ l' ↔ p = user ∨ (p ∈ requested ∧ p ≠ "")).
  { intros p. unfold l'. case_bool_decide as Hu.
    - rewrite Hl. apply Hs in Hu as [Hu|Hu]; [by apply not_elem_of_empty in Hu|].
      apply Hl in Hu as (Hu1 & Hu2 & _). split.
      + intros (? & ? & _). by right.
      + intros [->|[? ?]]; (split; [done|]); (split; [done|]); apply not_elem_of_empty.
    - rewrite elem_of_app, list_elem_of_singleton, Hl. split.
      + intros [(? & ? & _)| ->]; [by right | by left].
      + intros [->|[? ?]]; [by right|]. left. split; [done|]. split; [done|].
        apply not_elem_of_empty. }
  assert (Hlen : length l' ≠ 0).
  { assert (Hin : user ∈ l') by (apply Hl'; by left).
    destruct l'; [by apply elem_of_nil in Hin | done]. }
  rewrite (bool_decide_eq_false_2 _ Hlen).
  exists (merge_sort string_le l'). split; [done|].
  split; [by rewrite merge_sort_Permutation|].
  split; [apply Sorted_merge_sort, _|].
  intros p. by rewrite merge_sort_Permutation.
Qed.

(** X15. The participants of a chat started with a non-empty request: the
    "no valid participants" answer can never occur; the list is the set made
    of the requester and the non-empty names requested, each once, sorted in
    byte order. It depends only on which names were requested, not on their
    order or repetition, so two requests naming the same people look up the
    same participants array. An empty request is refused. *)
Theorem chat_participants_are_a_sorted_set user requested :
  requested ≠ [] →
  chat_participants user [] = ParticipantsRequired
  ∧ chat_participants user requested ≠ NoValidParticipants
  ∧ ∃ l, chat_participants user requested = ChatParticipants l
      ∧ NoDup l ∧ Sorted string_le l ∧ user ∈ l
      ∧ (∀ p, p ∈ l ↔ p = user ∨ (p ∈ requested ∧ p ≠ ""))
      ∧ (∀ requested', requested' ≠ [] →
           (∀ p, p ∈ requested' ↔ p ∈ requested) →
           chat_participants user requested' = ChatParticipants l).
Proof.
  intros Hne. split; [done|].
  destruct (chat_participants_list user requested Hne) as (l & Hrun & Hnd & Hsorted & Hl).
  split; [by rewrite Hrun|].
  exists l. split; [done|]. split; [done|]. split; [done|].
  split; [apply Hl; by left|]. split; [done|].
  intros requested' Hne' Hsame.
  destruct (chat_participants_list user requested' Hne')
    as (l' & Hrun' & Hnd' & Hsorted' & Hl').
  rewrite Hrun'. f_equal. apply (Sorted_unique string_le); [done|done|].
  apply NoDup_Permutation; [done|done|].
  intros p. rewrite Hl, Hl', Hsame. done.
Qed.

Lemma chat_participants_are_a_sorted_set_witness :
  ["bob"; ""; "alice"; "bob"] ≠ []
  ∧ chat_participants "carol" ["bob"; ""; "alice"; "bob"]
    = ChatParticipants ["alice"; "bob"; "carol"]
  ∧ chat_participants "carol" ["alice"; "bob"]
    = chat_participants "carol" ["bob"; ""; "alice"; "bob"]
  ∧ chat_participants "carol" [""] = ChatParticipants ["carol"]
  ∧ chat_participants "carol" ["bob"; ""; "alice"; "bob"] ≠ NoValidParticipants.
Proof.
  assert (Hne : ["bob"; ""; "alice"; "bob"] ≠ @nil string) by discriminate.
  split; [exact Hne|]. split; [vm_compute; reflexivity|].
  split; [vm_compute; reflexivity|]. split; [vm_compute; reflexivity|].
  exact (proj1 (proj2 (chat_participants_are_a_sorted_set "carol" _ Hne))).
Defined.

(* ===================================================================== *)
(*  Backpressure of the global broadcast                                  *)
(* ===================================================================== *)

Lemma global_drop_lines st (l : list (string * ptr)) :
  (∀ u p, (u, p) ∈ l → ∃ c, heap st !! p = Some c ∧ client_UserID c = u) →
  omap (drop_line id (λ _ c, LogDroppingGlobal (client_UserID c)) st) l.*2
  = (λ x, LogDroppingGlobal x.1) <$> List.filter (λ x, queue_full st x.2) l.
Proof.
  induction l as [|[u p] l IH]; intros Hcells; [done|].
  destruct (Hcells u p) as (c & Hc & Hu); [by left|].
  assert (Hd : drop_line id (λ _ c, LogDroppingGlobal (client_UserID c)) st p
               = if queue_full st p then Some (LogDroppingGlobal u) else None).
  { unfold drop_line, queue_full. simpl. rewrite Hc, Hu. done. }
  simpl. rewrite Hd.
  change (list_omap ptr LogLine) with (@omap list _ ptr LogLine).
  change (list_fmap (string * ptr)%type ptr snd l) with (l.*2).
  rewrite IH by (intros v q Hin; apply Hcells; by right).
  by destruct (queue_full st p).
Qed.

(** X16. Backpressure of broadcastGlobal: with N registered sessions of
    which q have a full queue, the broadcast returns, puts the frame at the
    tail of the other N - q queues, leaves the q full queues and every
    unregistered session as they were, and logs one drop line per full queue,
    naming that session's user (the lines are given up to their order, which
    follows Go's map iteration). *)
Theorem broadcastGlobal_backpressure payload st :
  registry_ok st →
  let sessions := map_to_list (clients_m st) in
  let q := count (λ x, queue_full st x.2) sessions in
  ∃ st', broadcastGlobal payload st = Done st'
    ∧ (∀ u p, lookup_session u st = Some p →
         queue st' p = if queue_full st p then queue st p else queue st p ++ [payload])
    ∧ (∀ p, (∀ u, lookup_session u st ≠ Some p) → queue st' p = queue st p)
    ∧ count (λ x, enqueued payload st st' x.2) sessions = size (clients_m st) - q
    ∧ (∃ drops, logs st' = logs st ++ drops
         ∧ drops ≡ₚ (λ x, LogDroppingGlobal x.1)
                      <$> List.filter (λ x, queue_full st x.2) sessions)
    ∧ length (logs st') = length (logs st) + q.
Proof.
  intros Hok sessions q.
  destruct (broadcastGlobal_ok payload st Hok)
    as (st' & Hrun & _ & _ & _ & _ & Hheap & Hlog).
  fold sessions in Hheap, Hlog.
  assert (Hq : ∀ u p, lookup_session u st = Some p →
             queue st' p = if queue_full st p then queue st p
                           else queue st p ++ [payload]).
  { intros u p Hp. destruct (Hok u p Hp) as (c & Hc & _).
    apply (queue_deliver payload st st' p c Hc).
    rewrite Hheap, decide_True, Hc; [done|]. apply elem_of_map_ptrs. by exists u. }
  rewrite (global_drop_lines st sessions) in Hlog.
  2: { intros u p Hin%elem_of_map_to_list.
       destruct (Hok u p Hin) as (c & Hc & Hu & _). by exists c. }
  exists st'. split; [done|]. split; [exact Hq|]. split; [|split; [|split]].
  - intros p Hunreg. unfold queue. rewrite Hheap, decide_False; [done|].
    intros [u Hu]%elem_of_map_ptrs. by apply (Hunreg u).
  - rewrite (count_ext _ (λ x, negb (queue_full st x.2))).
    + rewrite count_negb. unfold sessions. by rewrite length_map_to_list.
    + intros [u p] Hin%elem_of_map_to_list. simpl.
      apply enqueued_iff_not_full. by apply (Hq u).
  - eexists. split; [exact Hlog | done].
  - rewrite Hlog, length_app, length_fmap. done.
Qed.

Lemma broadcastGlobal_backpressure_witness :
  let st := Scenario.after Scenario.congestion in
  let frame := presence_payload "alice" false in
  registry_ok st
  ∧ count (λ x, queue_full st x.2) (map_to_list (clients_m st)) = 2
  ∧ ∃ st', broadcastGlobal frame st = Done st'
      ∧ queue st' 0 = [frame]
      ∧ queue st' 1 = queue st 1
      ∧ length (logs st') = length (logs st) + 2.
Proof.
  intros st frame.
  assert (Hok : registry_ok st) by apply after_registry_ok.
  assert (Hfull : count (λ x, queue_full st x.2) (map_to_list (clients_m st)) = 2)
    by (vm_compute; reflexivity).
  split; [exact Hok|]. split; [exact Hfull|].
  destruct (broadcastGlobal_backpressure frame st Hok)
    as (st' & Hrun & Hq & _ & _ & _ & Hlen).
  exists st'. split; [exact Hrun|]. split; [|split].
  - rewrite (Hq "alice" 0) by (vm_compute; reflexivity).
    replace (queue_full st 0) with false by (vm_compute; reflexivity).
    replace (queue st 0) with (@nil Payload) by (vm_compute; reflexivity).
    reflexivity.
  - rewrite (Hq "bob" 1) by (vm_compute; reflexivity).
    replace (queue_full st 1) with true by (vm_compute; reflexivity).
    reflexivity.
  - rewrite Hlen. by rewrite Hfull.
Defined.
